(** * MediaCore podcast model (mediacore/model/podcasts.py)

    The [podcasts] table, the [Podcast] mapped class with its slug
    validator and its [__repr__], the composite [author] attribute, the
    [media] relation with its backref, the two correlated count
    sub-selects of the mapper, and the storage behaviour the table
    declaration asks for (NOT NULL, UNIQUE, defaults on insert and on
    update, default ordering). *)

From Stdlib Require Import ZArith NArith Strings.String Strings.Ascii.
From stdpp Require Import base decidable option list sorting numbers.

Local Open Scope Z_scope.

(** ** Values *)

(** A Python [unicode] value is a sequence of code points. *)
Abbreviation unicode := (list N).

(** [u "text"] is the unicode value of an ASCII literal. *)
Fixpoint u (s : string) : unicode :=
  match s with
  | EmptyString => []
  | String c s' => N_of_ascii c :: u s'
  end.

(** A [DateTime] value, as a point on a discrete time line. *)
Abbreviation datetime := Z.

(** ** SQL expressions

    The where-clauses of the mapper are SQL, so comparisons are
    three-valued: a comparison with NULL is UNKNOWN, and a row is
    selected only when its where-clause is TRUE. *)
Module sql.

(** SQL truth value; [None] is UNKNOWN. *)
Definition truth := option bool.

Definition and2 (a b : truth) : truth :=
  match a, b with
  | Some false, _ | _, Some false => Some false
  | Some true, Some true => Some true
  | _, _ => None
  end.

Definition or2 (a b : truth) : truth :=
  match a, b with
  | Some true, _ | _, Some true => Some true
  | Some false, Some false => Some false
  | _, _ => None
  end.

(** [sql.and_(c1, ..., cn)] and [sql.or_(c1, ..., cn)]. *)
Definition and_ (cs : list truth) : truth := foldr and2 (Some true) cs.
Definition or_ (cs : list truth) : truth := foldr or2 (Some false) cs.

(** [a == b] between two column values or literals. *)
Definition eq {A} `{EqDecision A} (a b : option A) : truth :=
  match a, b with
  | Some x, Some y => Some (bool_decide (x = y))
  | _, _ => None
  end.

(** [a <= b] and [a >= b] on timestamps. *)
Definition le (a b : option datetime) : truth :=
  match a, b with
  | Some x, Some y => Some (bool_decide (x ≤ y))
  | _, _ => None
  end.

Definition ge (a b : option datetime) : truth :=
  match a, b with
  | Some x, Some y => Some (bool_decide (y ≤ x))
  | _, _ => None
  end.

(** [a == None], which SQLAlchemy renders as [a IS NULL]. *)
Definition is_null {A} (a : option A) : truth :=
  match a with
  | None => Some true
  | Some _ => Some false
  end.

(** A where-clause selects a row when it evaluates to TRUE. *)
Definition selects (t : truth) : Prop := t = Some true.

Definition counted {R A} (col : R → option A) (whereclause : R → truth)
    (r : R) : Prop :=
  selects (whereclause r) ∧ is_Some (col r).

#[export] Instance counted_dec {R A} (col : R → option A)
    (whereclause : R → truth) (r : R) : Decision (counted col whereclause r).
Proof. unfold counted, selects. apply _. Defined.

(** [select([func.count(col)], whereclause)]: the number of selected
    rows whose [col] is not NULL. *)
Definition select_count {R A} (col : R → option A) (whereclause : R → truth)
    (rows : list R) : nat :=
  length (filter (counted col whereclause) rows).

End sql.

(** ** Tables *)

(** Modelled from the spec: the [media] table, which is declared in
    mediacore.model.media and not in podcasts.py.  A row keeps the
    columns the selects of the podcast mapper name, typed by how the
    selects use them.  [id] is the primary key; every other column is
    taken as nullable. *)
Module media.
Record row := {
  id : Z;
  podcast_id : option Z;
  reviewed : option bool;
  encoded : option bool;
  publishable : option bool;
  publish_on : option datetime;
  publish_until : option datetime
}.

(** Column accessors as they appear in a select: [media.c.<name>]. *)
Module c.
Definition id (m : row) : option Z := Some (id m).
Definition podcast_id := podcast_id.
Definition reviewed := reviewed.
Definition encoded := encoded.
Definition publishable := publishable.
Definition publish_on := publish_on.
Definition publish_until := publish_until.
End c.
End media.
Abbreviation Media := media.row.

(** The [podcasts] table.  An attribute of a mapped object can hold
    Python's [None]; the NOT NULL columns are checked on insert. *)
Module podcasts.
Record row := {
  id : option Z;
  slug : option unicode;
  created_on : option datetime;
  modified_on : option datetime;
  title : option unicode;
  subtitle : option unicode;
  description : option unicode;
  category : option unicode;
  author_name : option unicode;
  author_email : option unicode;
  explicit : option bool;
  copyright : option unicode;
  itunes_url : option unicode;
  feedburner_url : option unicode
}.
End podcasts.
Abbreviation Podcast := podcasts.row.

(** ** Derived counters of the mapper *)

(** ['media_count']: select count(media.id) where
    media.podcast_id = podcasts.id, correlated to the podcast row. *)
Definition media_count (media : list Media) (p : Podcast) : nat :=
  sql.select_count media.c.id
    (λ m, sql.eq (media.c.podcast_id m) (podcasts.id p))
    media.

(** ['media_count_published']: the same select under the conjunction
    of the mapper; [now] is [current_timestamp()]. *)
Definition media_count_published (now : datetime) (media : list Media)
    (p : Podcast) : nat :=
  sql.select_count media.c.id
    (λ m, sql.and_ [
            sql.eq (media.c.podcast_id m) (podcasts.id p);
            sql.eq (media.c.reviewed m) (Some true);
            sql.eq (media.c.encoded m) (Some true);
            sql.eq (media.c.publishable m) (Some true);
            sql.le (media.c.publish_on m) (Some now);
            sql.or_ [
              sql.is_null (media.c.publish_until m);
              sql.ge (media.c.publish_until m) (Some now)
            ]
          ])
    media.

(** ** Helpers imported from mediacore.model *)

(** [slugify] is imported from mediacore.model and its body is not part
    of podcasts.py; this module holds its model and the shape of its
    results. *)
Module slug.

(** The separator, a hyphen. *)
Definition separator : N := 45%N.

Definition is_upper (ch : N) : bool := ((65 <=? ch) && (ch <=? 90))%N.
Definition is_lower (ch : N) : bool := ((97 <=? ch) && (ch <=? 122))%N.
Definition is_digit (ch : N) : bool := ((48 <=? ch) && (ch <=? 57))%N.

(** Lower-casing of one character. *)
Definition lower (ch : N) : N := if is_upper ch then (ch + 32)%N else ch.

(** The characters a slug keeps as they are. *)
Definition is_word (ch : N) : bool := is_lower ch || is_digit ch.

(** Every run of non-word characters becomes one separator;
    [in_run] says the previous character was already part of a run. *)
Fixpoint collapse (in_run : bool) (s : unicode) : unicode :=
  match s with
  | [] => []
  | ch :: s' =>
      if is_word ch then ch :: collapse false s'
      else if in_run then collapse true s'
      else separator :: collapse true s'
  end.

(** Modelled from the spec: [mediacore.model.slugify], whose body is
    missing.  The spec gives its rule as "lower-cased,
    whitespace/punctuation collapsed to separators", with a "URL-safe,
    lower-case, separator-normalized" result: the input is lower-cased,
    letters and digits are kept, and every maximal run of other
    characters becomes one separator.  Every character that is not an
    ASCII letter or digit counts as whitespace or punctuation, which is
    what makes the result URL-safe for any input, and the rule states
    no cut to a length. *)
Definition slugify (s : unicode) : unicode := collapse false (lower <$> s).

(** The shape of a slug. *)
Definition url_safe (s : unicode) : Prop :=
  Forall (λ ch, is_word ch || bool_decide (ch = separator)) s.

Definition lower_case (s : unicode) : Prop :=
  Forall (λ ch, is_upper ch = false) s.

(** The first character of a string is a separator. *)
Definition leading_separator (s : unicode) : Prop :=
  match s with
  | ch :: _ => ch = separator
  | [] => False
  end.

Fixpoint separator_normalized (s : unicode) : Prop :=
  match s with
  | a :: (b :: _) as s' =>
      ¬ (a = separator ∧ b = separator) ∧ separator_normalized s'
  | _ => True
  end.

End slug.
Abbreviation slugify := slug.slugify.

(** Modelled from the spec: the [Author] class is imported from
    mediacore.model.  The spec describes it as a value object "exposing
    name and email", built from and written back to two columns. *)
Record Author := {
  name : option unicode;
  email : option unicode
}.

(** What the composite machinery asks of the class: construction from
    the column values, and the values to write back. *)
Definition Author_init (name email : option unicode) : Author :=
  {| name := name; email := email |}.

Definition composite_values (a : Author) : option unicode * option unicode :=
  (name a, email a).

(** ** The Podcast class *)

(** The attribute names the class cares about. *)
Inductive attribute :=
| a_id | a_slug | a_created_on | a_modified_on | a_title | a_subtitle
| a_description | a_category | a_author_name | a_author_email | a_explicit
| a_copyright | a_itunes_url | a_feedburner_url.

(** [Podcast.validate_slug(self, key, slug)], registered with
    [@validates('slug')]. *)
Definition validate_slug (self : Podcast) (key : attribute) (slug : unicode)
    : unicode :=
  slugify slug.

(** A podcast object before any attribute is set. *)
Definition new_podcast : Podcast :=
  podcasts.Build_row None None None None None None None None None None None
    None None None.

(** Plain column attributes: an assignment stores the value. *)
Section setters.
Import podcasts.
Variable p : Podcast.

Definition store_id v :=
  Build_row v (slug p) (created_on p) (modified_on p) (title p) (subtitle p)
    (description p) (category p) (author_name p) (author_email p)
    (explicit p) (copyright p) (itunes_url p) (feedburner_url p).
Definition store_slug v :=
  Build_row (id p) v (created_on p) (modified_on p) (title p) (subtitle p)
    (description p) (category p) (author_name p) (author_email p)
    (explicit p) (copyright p) (itunes_url p) (feedburner_url p).
Definition store_created_on v :=
  Build_row (id p) (slug p) v (modified_on p) (title p) (subtitle p)
    (description p) (category p) (author_name p) (author_email p)
    (explicit p) (copyright p) (itunes_url p) (feedburner_url p).
Definition store_modified_on v :=
  Build_row (id p) (slug p) (created_on p) v (title p) (subtitle p)
    (description p) (category p) (author_name p) (author_email p)
    (explicit p) (copyright p) (itunes_url p) (feedburner_url p).
Definition store_title v :=
  Build_row (id p) (slug p) (created_on p) (modified_on p) v (subtitle p)
    (description p) (category p) (author_name p) (author_email p)
    (explicit p) (copyright p) (itunes_url p) (feedburner_url p).
Definition store_subtitle v :=
  Build_row (id p) (slug p) (created_on p) (modified_on p) (title p) v
    (description p) (category p) (author_name p) (author_email p)
    (explicit p) (copyright p) (itunes_url p) (feedburner_url p).
Definition store_description v :=
  Build_row (id p) (slug p) (created_on p) (modified_on p) (title p)
    (subtitle p) v (category p) (author_name p) (author_email p)
    (explicit p) (copyright p) (itunes_url p) (feedburner_url p).
Definition store_category v :=
  Build_row (id p) (slug p) (created_on p) (modified_on p) (title p)
    (subtitle p) (description p) v (author_name p) (author_email p)
    (explicit p) (copyright p) (itunes_url p) (feedburner_url p).
Definition store_author_name v :=
  Build_row (id p) (slug p) (created_on p) (modified_on p) (title p)
    (subtitle p) (description p) (category p) v (author_email p)
    (explicit p) (copyright p) (itunes_url p) (feedburner_url p).
Definition store_author_email v :=
  Build_row (id p) (slug p) (created_on p) (modified_on p) (title p)
    (subtitle p) (description p) (category p) (author_name p) v
    (explicit p) (copyright p) (itunes_url p) (feedburner_url p).
Definition store_explicit v :=
  Build_row (id p) (slug p) (created_on p) (modified_on p) (title p)
    (subtitle p) (description p) (category p) (author_name p)
    (author_email p) v (copyright p) (itunes_url p) (feedburner_url p).
Definition store_copyright v :=
  Build_row (id p) (slug p) (created_on p) (modified_on p) (title p)
    (subtitle p) (description p) (category p) (author_name p)
    (author_email p) (explicit p) v (itunes_url p) (feedburner_url p).
Definition store_itunes_url v :=
  Build_row (id p) (slug p) (created_on p) (modified_on p) (title p)
    (subtitle p) (description p) (category p) (author_name p)
    (author_email p) (explicit p) (copyright p) v (feedburner_url p).
Definition store_feedburner_url v :=
  Build_row (id p) (slug p) (created_on p) (modified_on p) (title p)
    (subtitle p) (description p) (category p) (author_name p)
    (author_email p) (explicit p) (copyright p) (itunes_url p) v.
End setters.

(** [podcast.slug = value]: the validator registered for the attribute
    runs first and its return value is what the attribute holds. *)
Definition set_slug (p : Podcast) (value : unicode) : Podcast :=
  store_slug p (Some (validate_slug p a_slug value)).

(** [podcast.explicit = value] and [podcast.explicit]. *)
Definition set_explicit (p : Podcast) (value : option bool) : Podcast :=
  store_explicit p value.
Definition get_explicit (p : Podcast) : option bool := podcasts.explicit p.

(** The reading of the three states, from the column's documentation. *)
Inductive itunes_explicit := yes | no_advisory | clean.

Definition explicit_meaning (v : option bool) : itunes_explicit :=
  match v with
  | Some true => yes
  | None => no_advisory
  | Some false => clean
  end.

(** ['author': composite(Author, author_name, author_email)]: what a
    write of the composite does to the columns, which is to store the
    values of the given [Author] in the two of them. *)
Definition set_author (p : Podcast) (a : Author) : Podcast :=
  let '(n, e) := composite_values a in
  store_author_email (store_author_name p n) e.

(** An attribute assignment on a podcast object. *)
Inductive assignment :=
| assign_id (v : option Z)
| assign_slug (v : unicode)
| assign_created_on (v : option datetime)
| assign_modified_on (v : option datetime)
| assign_title (v : option unicode)
| assign_subtitle (v : option unicode)
| assign_description (v : option unicode)
| assign_category (v : option unicode)
| assign_author_name (v : option unicode)
| assign_author_email (v : option unicode)
| assign_explicit (v : option bool)
| assign_copyright (v : option unicode)
| assign_itunes_url (v : option unicode)
| assign_feedburner_url (v : option unicode)
| assign_author (a : Author).

Definition setattr (p : Podcast) (w : assignment) : Podcast :=
  match w with
  | assign_id v => store_id p v
  | assign_slug v => set_slug p v
  | assign_created_on v => store_created_on p v
  | assign_modified_on v => store_modified_on p v
  | assign_title v => store_title p v
  | assign_subtitle v => store_subtitle p v
  | assign_description v => store_description p v
  | assign_category v => store_category p v
  | assign_author_name v => store_author_name p v
  | assign_author_email v => store_author_email p v
  | assign_explicit v => set_explicit p v
  | assign_copyright v => store_copyright p v
  | assign_itunes_url v => store_itunes_url p v
  | assign_feedburner_url v => store_feedburner_url p v
  | assign_author a => set_author p a
  end.

(** A run of assignments, in program order. *)
Definition setattrs (p : Podcast) (ws : list assignment) : Podcast :=
  foldl setattr p ws.

(** *** Instances and the composite they hold

    A mapped instance has its column attributes, the composite object
    it holds under ['author'] once one was built or assigned, and
    whether it stands for a stored row. *)
Record instance := {
  columns : Podcast;
  held_author : option (option Author);
  persistent : bool
}.

(** [Podcast()]: nothing set, nothing held, not stored. *)
Definition new_instance : instance :=
  {| columns := new_podcast; held_author := None; persistent := false |}.

(** An instance as a load, a refresh or a flush leaves it: the columns
    of the row, and no composite held. *)
Definition loaded (row : Podcast) : instance :=
  {| columns := row; held_author := None; persistent := true |}.

(** Neither column of the composite is set. *)
Definition author_columns_unset (p : Podcast) : bool :=
  match podcasts.author_name p, podcasts.author_email p with
  | None, None => true
  | _, _ => false
  end.

(** [instance.author]: the composite the instance holds, if any.
    Otherwise one is built from the two columns and held from then on,
    when the instance is stored or one of the columns is set; and the
    value is [None] when it is neither.  The result comes with the
    instance as the read leaves it. *)
Definition read_author (i : instance) : option Author * instance :=
  match held_author i with
  | Some held => (held, i)
  | None =>
      if persistent i || negb (author_columns_unset (columns i))
      then
        let a := Author_init (podcasts.author_name (columns i))
                   (podcasts.author_email (columns i)) in
        (Some a, {| columns := columns i; held_author := Some (Some a);
                    persistent := persistent i |})
      else (None, i)
  end.

(** [instance.author = value]: the instance holds the value, and both
    columns take its values, or [None] when the value is [None]. *)
Definition write_author (i : instance) (value : option Author) : instance :=
  {| columns :=
       match value with
       | Some a => set_author (columns i) a
       | None => store_author_email (store_author_name (columns i) None) None
       end;
     held_author := Some value;
     persistent := persistent i |}.

(** An assignment on an instance: a column assignment changes the
    column and leaves the held composite as it is. *)
Definition write (i : instance) (w : assignment) : instance :=
  match w with
  | assign_author a => write_author i (Some a)
  | _ => {| columns := setattr (columns i) w;
            held_author := held_author i;
            persistent := persistent i |}
  end.



(** ** The storage layer, as the table declaration configures it *)

(** The constraint failures a write can raise. *)
Inductive IntegrityError :=
| not_null_violation (column : attribute)
| unique_violation (column : attribute).

(** A storage operation either raises or returns. *)
Definition result (A : Type) : Type := IntegrityError + A.

Definition raise {A} (e : IntegrityError) : result A := inl e.
Definition ret {A} (a : A) : result A := inr a.
Definition bind {A B} (m : result A) (k : A → result B) : result B :=
  match m with
  | inl e => inl e
  | inr a => k a
  end.

Declare Scope result_scope.
Delimit Scope result_scope with result.
Notation "x ←! m ; k" := (bind m (λ x, k))
  (at level 100, m at next level, k at level 200, right associativity)
  : result_scope.
Notation "m ;! k" := (bind m (λ _, k))
  (at level 100, k at level 200, right associativity) : result_scope.

(** [nullable=False] on a column. *)
Definition not_null {A} (column : attribute) (v : option A) : result () :=
  match v with
  | Some _ => ret ()
  | None => raise (not_null_violation column)
  end.

(** [unique=True] (and the primary key) on a column: the value of the
    new row must differ from the value of every stored row.  NULLs
    never collide. *)
Definition unique {A} `{EqDecision A} (column : attribute)
    (col : Podcast → option A) (table : list Podcast) (p : Podcast)
    : result () :=
  match col p with
  | None => ret ()
  | Some v =>
      if decide (Some v ∈ col <$> table) then raise (unique_violation column)
      else ret ()
  end.

(** [autoincrement=True] on the primary key: a row inserted without a
    key gets one from the database.  Which key is the choice of the
    database, made from the keys in use; what the declaration gives is
    that it is a key no stored row has. *)
Record autoincrement := {
  next_id : list (option Z) → Z;
  next_id_unused : ∀ ids, Some (next_id ids) ∉ ids
}.

(** One such choice: one more than the largest key in use, and 1 when
    there is none. *)
Definition largest_key_plus_one (ids : list (option Z)) : Z :=
  match omap id ids with
  | [] => 1
  | k :: ks => 1 + foldr Z.max k ks
  end.

Definition rowid_keys : autoincrement.
Proof.
  refine {| next_id := largest_key_plus_one |}.
  intros ids Hin.
  assert (∀ k ks j, j ∈ k :: ks → j ≤ foldr Z.max k ks) as Hmax.
  { intros k ks. induction ks as [|x ks IH]; intros j Hj; simpl.
    - apply list_elem_of_singleton in Hj. lia.
    - apply elem_of_cons in Hj as [->|Hj].
      + specialize (IH k (list_elem_of_here _ _)). lia.
      + apply elem_of_cons in Hj as [->|Hj]; [lia|].
        specialize (IH j (list_elem_of_further _ _ _ Hj)). lia. }
  assert (largest_key_plus_one ids ∈ omap id ids) as Hkey.
  { apply list_elem_of_omap. by eexists. }
  unfold largest_key_plus_one in Hkey.
  destruct (omap id ids) as [|k ks]; [by apply elem_of_nil in Hkey|].
  apply Hmax in Hkey. lia.
Defined.

(** Column defaults applied to a row on insert: the key, and
    [default=datetime.now] on both timestamps.  [explicit] has
    [default=None], so it stays as the object has it. *)
Definition with_defaults (keys : autoincrement) (now : datetime)
    (table : list Podcast) (p : Podcast) : Podcast :=
  let p1 :=
    store_id p (Some (default (next_id keys (podcasts.id <$> table))
                        (podcasts.id p))) in
  let p2 := store_created_on p1 (Some (default now (podcasts.created_on p1))) in
  store_modified_on p2 (Some (default now (podcasts.modified_on p2))).

(** INSERT of one podcast row: defaults, then the NOT NULL columns in
    table order, then the primary key and the unique slug.  Column
    lengths are not checked. *)
Definition insert (keys : autoincrement) (now : datetime)
    (table : list Podcast) (p : Podcast) : result (list Podcast) :=
  (let row := with_defaults keys now table p in
   not_null a_slug (podcasts.slug row) ;!
   not_null a_created_on (podcasts.created_on row) ;!
   not_null a_modified_on (podcasts.modified_on row) ;!
   not_null a_title (podcasts.title row) ;!
   not_null a_author_name (podcasts.author_name row) ;!
   not_null a_author_email (podcasts.author_email row) ;!
   unique a_id podcasts.id table row ;!
   unique a_slug podcasts.slug table row ;!
   ret (table ++ [row]))%result.

(** Saving the pending new objects of a unit of work, in order: the
    podcast model installs no handler, so the first error ends the
    flush and is its result. *)
Fixpoint flush (keys : autoincrement) (now : datetime)
    (table : list Podcast) (pending : list Podcast) : result (list Podcast) :=
  match pending with
  | [] => ret table
  | p :: rest =>
      (table' ←! insert keys now table p; flush keys now table' rest)%result
  end.

(** ** Queries and the default ordering of the mapper *)

Module query.
Section collation.
(** The comparison the database uses for text in ORDER BY. *)
Variable collate_leb : unicode → unicode → bool.

(** Order of two values of a nullable text column, NULL first. *)
Definition key_le (a b : option unicode) : Prop :=
  match a, b with
  | None, _ => True
  | Some _, None => False
  | Some x, Some y => collate_leb x y
  end.

#[export] Instance key_le_dec a b : Decision (key_le a b).
Proof. destruct a, b; simpl; apply _. Defined.

(** Rows compared by a text column. *)
Definition ordered_by (col : Podcast → option unicode) : relation Podcast :=
  λ p q, key_le (col p) (col q).

#[export] Instance ordered_by_dec col p q : Decision (ordered_by col p q).
Proof. unfold ordered_by. apply _. Defined.

(** [mapper(Podcast, podcasts, order_by=podcasts.c.title, ...)]. *)
Definition mapper_order_by : Podcast → option unicode := podcasts.title.

(** A query on [Podcast]: the criterion its rows must meet, and the
    ordering the caller asked for, if any. *)
Record Query := {
  criterion : Podcast → bool;
  order_by : option (Podcast → option unicode)
}.

(** [Podcast.query] and [q.filter(criterion)]. *)
Definition Podcast_query : Query :=
  {| criterion := λ _, true; order_by := None |}.

Definition Query_filter (q : Query) (c : Podcast → bool) : Query :=
  {| criterion := λ p, criterion q p && c p; order_by := order_by q |}.

(** [q.all()]: the rows that meet the criterion, in the order of the
    query, which is the mapper's when the query carries none. *)
Definition all (q : Query) (table : list Podcast) : list Podcast :=
  merge_sort (ordered_by (default mapper_order_by (order_by q)))
    (filter (λ p, criterion q p) table).
End collation.

(** A binary collation: code points compared left to right. *)
Fixpoint binary_leb (a b : unicode) : bool :=
  match a, b with
  | [], _ => true
  | _ :: _, [] => false
  | x :: a', y :: b' => (x <? y)%N || ((x =? y)%N && binary_leb a' b')
  end.
End query.

(** ** The counters as the specification words them *)

(** A media row belongs to the podcast with identifier [pid]. *)
Definition belongs_to (pid : Z) (m : Media) : Prop :=
  media.podcast_id m = Some pid.

(** The five parts of the published predicate at time [now]. *)
Definition starts_by (now : datetime) (m : Media) : Prop :=
  match media.publish_on m with
  | Some start => start ≤ now
  | None => False
  end.

Definition not_ended_at (now : datetime) (m : Media) : Prop :=
  match media.publish_until m with
  | None => True
  | Some stop => now ≤ stop
  end.

Definition published (now : datetime) (m : Media) : Prop :=
  media.reviewed m = Some true ∧
  media.encoded m = Some true ∧
  media.publishable m = Some true ∧
  starts_by now m ∧
  not_ended_at now m.

#[export] Instance belongs_to_dec pid m : Decision (belongs_to pid m).
Proof. unfold belongs_to. apply _. Defined.

#[export] Instance starts_by_dec now m : Decision (starts_by now m).
Proof. unfold starts_by. destruct (media.publish_on m); apply _. Defined.

#[export] Instance not_ended_at_dec now m : Decision (not_ended_at now m).
Proof. unfold not_ended_at. destruct (media.publish_until m); apply _. Defined.

#[export] Instance published_dec now m : Decision (published now m).
Proof. unfold published. apply _. Defined.

(** Sample data: three episodes of podcast 7, two of them published at
    time 100, and one episode of another podcast. *)
Module sample.
Definition episode (key : Z) (pid : option Z) (rev : bool)
    (start : option datetime) (stop : option datetime) : Media :=
  {| media.id := key; media.podcast_id := pid;
     media.reviewed := Some rev; media.encoded := Some true;
     media.publishable := Some true;
     media.publish_on := start; media.publish_until := stop |}.

Definition episodes : list Media :=
  [ episode 1 (Some 7) true (Some 10) None;
    episode 2 (Some 7) false (Some 10) None;
    episode 3 (Some 7) true (Some 20) None;
    episode 4 (Some 8) true (Some 10) (Some 50) ].

Definition show : Podcast :=
  setattrs new_podcast
    [ assign_id (Some 7); assign_slug (u "Morning Show!");
      assign_title (Some (u "Morning Show"));
      assign_author (Author_init (Some (u "Ann")) (Some (u "ann@example.org"))) ].

Definition other_show : Podcast :=
  setattrs new_podcast
    [ assign_slug (u "morning  show?");
      assign_title (Some (u "Another Morning Show"));
      assign_author (Author_init (Some (u "Bob")) (Some (u "bob@example.org"))) ].

Definition late_show : Podcast :=
  setattrs new_podcast
    [ assign_slug (u "Late Show");
      assign_title (Some (u "Late Show"));
      assign_author (Author_init (Some (u "Cy")) (Some (u "cy@example.org"))) ].
End sample.

(** The claim that an assignment never leaves the new podcast with
    the slug of an existing one. *)
Definition disambiguated_on_collision (existing p : Podcast) (value : unicode)
    : Prop :=
  podcasts.slug existing = Some (slugify value) →
  podcasts.slug (setattr p (assign_slug value)) ≠ podcasts.slug existing.

(** What an insert asks of a new podcast besides its slug. *)
Definition new_and_complete (p : Podcast) : Prop :=
  podcasts.id p = None ∧
  is_Some (podcasts.title p) ∧
  is_Some (podcasts.author_name p) ∧
  is_Some (podcasts.author_email p).

(** ** The episodes relation *)

(** ['media': dynamic_loader(Media, backref='podcast', ...)]:
    [podcast.media] is a query on media pre-filtered to the rows whose
    podcast_id is the id of the podcast; these are the rows it loads.
    The order they come in is set by the Media mapper and the database,
    which are not in podcasts.py: [row_order] stands for it. *)
Definition Podcast_media (row_order : list Media → list Media)
    (media : list Media) (p : Podcast) : list Media :=
  row_order
    (filter (λ m, sql.selects (sql.eq (media.c.podcast_id m) (podcasts.id p)))
       media).

(** The backref: [m.podcast] is the stored podcast whose id the
    podcast_id of the media row names, if there is one. *)
Definition Media_podcast (table : list Podcast) (m : Media) : option Podcast :=
  head (filter (λ p, sql.selects (sql.eq (podcasts.id p) (media.c.podcast_id m)))
          table).

(** ** Stored tables *)

(** The constraints the table declaration puts on a stored row and on
    the table: the NOT NULL columns, the primary key, the unique slug. *)
Definition complete (p : Podcast) : Prop :=
  is_Some (podcasts.id p) ∧
  is_Some (podcasts.slug p) ∧
  is_Some (podcasts.created_on p) ∧
  is_Some (podcasts.modified_on p) ∧
  is_Some (podcasts.title p) ∧
  is_Some (podcasts.author_name p) ∧
  is_Some (podcasts.author_email p).

Definition consistent (table : list Podcast) : Prop :=
  Forall complete table ∧
  NoDup (podcasts.id <$> table) ∧
  NoDup (podcasts.slug <$> table).

(** The columns on which no default acts are the same in two rows. *)
Definition same_assigned_columns (p q : Podcast) : Prop :=
  podcasts.slug p = podcasts.slug q ∧
  podcasts.title p = podcasts.title q ∧
  podcasts.subtitle p = podcasts.subtitle q ∧
  podcasts.description p = podcasts.description q ∧
  podcasts.category p = podcasts.category q ∧
  podcasts.author_name p = podcasts.author_name q ∧
  podcasts.author_email p = podcasts.author_email q ∧
  podcasts.explicit p = podcasts.explicit q ∧
  podcasts.copyright p = podcasts.copyright q ∧
  podcasts.itunes_url p = podcasts.itunes_url q ∧
  podcasts.feedburner_url p = podcasts.feedburner_url q.

#[export] Instance Podcast_eq_dec : EqDecision Podcast.
Proof. solve_decision. Defined.

(** UPDATE of the stored row that was loaded as [old] and now holds the
    values of [new].  The unit of work sends no statement when no
    attribute changed.  [onupdate=datetime.now] stamps modified_on
    unless the statement sets that column itself.  The constraints are
    checked against the other rows. *)
Definition update (now : datetime) (table : list Podcast) (old new : Podcast)
    : result (list Podcast) :=
  if decide (new = old) then ret table
  else
    (let row :=
       if decide (podcasts.modified_on new = podcasts.modified_on old)
       then store_modified_on new (Some now)
       else new in
     let others := filter (λ q, podcasts.id q ≠ podcasts.id old) table in
     not_null a_id (podcasts.id row) ;!
     not_null a_slug (podcasts.slug row) ;!
     not_null a_created_on (podcasts.created_on row) ;!
     not_null a_modified_on (podcasts.modified_on row) ;!
     not_null a_title (podcasts.title row) ;!
     not_null a_author_name (podcasts.author_name row) ;!
     not_null a_author_email (podcasts.author_email row) ;!
     unique a_id podcasts.id others row ;!
     unique a_slug podcasts.slug others row ;!
     ret ((λ q, if decide (podcasts.id q = podcasts.id old) then row else q)
            <$> table))%result.

(** ** Podcast.__repr__ *)

(** Python's [repr] of a unicode value, with code points as characters:
    the quote is an apostrophe unless the text has an apostrophe and no
    double quote; the quote and the backslash are escaped with a
    backslash, tab, newline and return by letter, every other character
    outside the printable ASCII range in hexadecimal. *)
Module py.

Definition hex_digit (d : N) : N :=
  (if d <? 10 then 48 + d else 87 + d)%N.

(** [width] hexadecimal digits of [n], most significant first. *)
Fixpoint hex (width : nat) (n : N) : unicode :=
  match width with
  | O => []
  | S w => hex w (n / 16)%N ++ [hex_digit (n mod 16)%N]
  end.

Definition apostrophe : N := 39%N.
Definition double_quote : N := 34%N.
Definition backslash : N := 92%N.

Definition quote_of (s : unicode) : N :=
  if bool_decide (apostrophe ∈ s) && negb (bool_decide (double_quote ∈ s))
  then double_quote else apostrophe.

Definition escape (quote ch : N) : unicode :=
  if bool_decide (ch = quote) || bool_decide (ch = backslash)
  then [backslash; ch]
  else if (65536 <=? ch)%N then backslash :: 85%N :: hex 8 ch
  else if (256 <=? ch)%N then backslash :: 117%N :: hex 4 ch
  else if (ch =? 9)%N then [backslash; 116%N]
  else if (ch =? 10)%N then [backslash; 110%N]
  else if (ch =? 13)%N then [backslash; 114%N]
  else if (ch <? 32)%N || (127 <=? ch)%N then backslash :: 120%N :: hex 2 ch
  else [ch].

Definition unicode_repr (s : unicode) : unicode :=
  117%N :: quote_of s :: (s ≫= escape (quote_of s)) ++ [quote_of s].

(** [repr] of an attribute that holds a unicode value or [None]. *)
Definition repr (v : option unicode) : unicode :=
  match v with
  | None => u "None"
  | Some s => unicode_repr s
  end.

(** The characters a terminal can show: printable ASCII. *)
Definition printable (s : unicode) : Prop :=
  Forall (λ ch, (32 ≤ ch < 127)%N) s.

(** Text that needs no escape: printable ASCII with no apostrophe and
    no backslash. *)
Definition plain (s : unicode) : Prop :=
  Forall (λ ch, (32 ≤ ch < 127)%N ∧ ch ≠ apostrophe ∧ ch ≠ backslash) s.

End py.

(** [Podcast.__repr__]: ['<Podcast: %r>' % self.slug]. *)
Definition Podcast_repr (self : Podcast) : unicode :=
  u "<Podcast: " ++ py.repr (podcasts.slug self) ++ u ">".

(** ** Properties of the SQL layer *)

Section sql_facts.
Context {R A : Type} (col : R → option A).

Lemma and2_true a b : sql.and2 a b = Some true ↔ a = Some true ∧ b = Some true.
Proof. destruct a as [[]|], b as [[]|]; simpl; intuition congruence. Qed.

Lemma or2_true a b : sql.or2 a b = Some true ↔ a = Some true ∨ b = Some true.
Proof. destruct a as [[]|], b as [[]|]; simpl; intuition congruence. Qed.

Lemma and__true cs : sql.and_ cs = Some true ↔ Forall (λ c, c = Some true) cs.
Proof.
  induction cs as [|c cs IH].
  - split; [constructor | done].
  - change (sql.and_ (c :: cs)) with (sql.and2 c (sql.and_ cs)).
    rewrite and2_true, IH. split.
    + intros [Hc Hcs]. by constructor.
    + by inversion 1.
Qed.

Lemma or__true cs : sql.or_ cs = Some true ↔ Exists (λ c, c = Some true) cs.
Proof.
  induction cs as [|c cs IH].
  - split; [done | by intros ?%Exists_nil].
  - change (sql.or_ (c :: cs)) with (sql.or2 c (sql.or_ cs)).
    rewrite or2_true, IH. split.
    + intros [Hc|Hcs]; [by left | by right].
    + inversion 1; [by left | by right].
Qed.

Lemma eq_true `{EqDecision B} (a : option B) (b : B) :
  sql.eq a (Some b) = Some true ↔ a = Some b.
Proof.
  destruct a as [x|]; simpl; [case_bool_decide|]; split;
    first [ intros [? [[= <-] ?]] | intros [= <-] | intros ]; try done;
    repeat f_equal; eauto; congruence.
Qed.

Lemma le_true a now : sql.le a (Some now) = Some true ↔ ∃ x, a = Some x ∧ x ≤ now.
Proof.
  destruct a as [x|]; simpl; [case_bool_decide|]; split;
    first [ intros [? [[= <-] ?]] | intros [= <-] | intros ]; try done;
    repeat f_equal; eauto; congruence.
Qed.

Lemma ge_true a now : sql.ge a (Some now) = Some true ↔ ∃ x, a = Some x ∧ now ≤ x.
Proof.
  destruct a as [x|]; simpl; [case_bool_decide|]; split;
    first [ intros [? [[= <-] ?]] | intros [= <-] | intros ]; try done;
    repeat f_equal; eauto; congruence.
Qed.

Lemma is_null_true {B} (a : option B) : sql.is_null a = Some true ↔ a = None.
Proof. destruct a; simpl; split; congruence. Qed.

(** A count is the number of rows of any predicate that agrees with
    the where-clause on the rows of the table. *)
Lemma select_count_filter (w : R → sql.truth) (P : R → Prop)
    `{∀ r, Decision (P r)} (rows : list R) :
  (∀ r, r ∈ rows → (sql.counted col w r ↔ P r)) →
  sql.select_count col w rows = length (filter P rows).
Proof.
  unfold sql.select_count. induction rows as [|r rows IH]; intros Hagree.
  - done.
  - assert (sql.counted col w r ↔ P r) as Hr by (apply Hagree; left).
    specialize (IH (λ r' Hin, Hagree r' (list_elem_of_further _ _ _ Hin))).
    rewrite !filter_cons.
    destruct (decide (sql.counted col w r)), (decide (P r)); simpl;
      rewrite ?IH; tauto.
Qed.

(** A stronger where-clause counts no more rows. *)
Lemma select_count_mono (w1 w2 : R → sql.truth) (rows : list R) :
  (∀ r, sql.selects (w1 r) → sql.selects (w2 r)) →
  (sql.select_count col w1 rows ≤ sql.select_count col w2 rows)%nat.
Proof.
  intros Himp. unfold sql.select_count.
  induction rows as [|r rows IH]; [done|].
  rewrite !filter_cons.
  destruct (decide (sql.counted col w1 r)) as [[H1 Hc]|],
           (decide (sql.counted col w2 r)) as [|Hn]; simpl; try lia.
  destruct Hn. split; auto.
Qed.
End sql_facts.

(** ** The derived counters *)

(** The where-clause of ['media_count'] selects the rows of the podcast. *)
Lemma media_count_clause (p : Podcast) (pid : Z) (m : Media) :
  podcasts.id p = Some pid →
  sql.selects (sql.eq (media.c.podcast_id m) (podcasts.id p)) ↔ belongs_to pid m.
Proof.
  intros ->. unfold sql.selects, belongs_to, media.c.podcast_id.
  apply eq_true.
Qed.

(** The where-clause of ['media_count_published'] selects the published
    rows of the podcast. *)
Lemma media_count_published_clause (now : datetime) (p : Podcast) (pid : Z)
    (m : Media) :
  podcasts.id p = Some pid →
  sql.selects
    (sql.and_ [
       sql.eq (media.c.podcast_id m) (podcasts.id p);
       sql.eq (media.c.reviewed m) (Some true);
       sql.eq (media.c.encoded m) (Some true);
       sql.eq (media.c.publishable m) (Some true);
       sql.le (media.c.publish_on m) (Some now);
       sql.or_ [
         sql.is_null (media.c.publish_until m);
         sql.ge (media.c.publish_until m) (Some now)
       ]
     ])
  ↔ belongs_to pid m ∧ published now m.
Proof.
  intros ->. unfold sql.selects, belongs_to, published, starts_by, not_ended_at.
  unfold media.c.podcast_id, media.c.reviewed, media.c.encoded,
    media.c.publishable, media.c.publish_on, media.c.publish_until.
  rewrite and__true, !Forall_cons_iff, or__true, !Exists_cons, Exists_nil.
  rewrite !eq_true, le_true, ge_true, is_null_true.
  destruct (media.publish_on m) as [start|], (media.publish_until m) as [stop|].
  - split.
    + intros (? & ? & ? & ? & (x & [= <-] & ?) & [[=]|[(y & [= <-] & ?)|[]]] & _).
      done.
    + intros (? & ? & ? & ? & ? & ?). repeat split; eauto.
  - split.
    + intros (? & ? & ? & ? & (x & [= <-] & ?) & _). done.
    + intros (? & ? & ? & ? & ? & ?). repeat split; eauto.
  - split.
    + intros (? & ? & ? & ? & (x & [=] & ?) & _).
    + intros (? & ? & ? & ? & [] & ?).
  - split.
    + intros (? & ? & ? & ? & (x & [=] & ?) & _).
    + intros (? & ? & ? & ? & [] & ?).
Qed.

(** The primary key of a media row is never NULL, so [count(media.id)]
    counts every selected row. *)
Lemma media_id_counted (w : Media → sql.truth) (m : Media) :
  sql.counted media.c.id w m ↔ sql.selects (w m).
Proof. unfold sql.counted, media.c.id. split; [tauto | eauto]. Qed.

(** C1: for a podcast with identifier [pid], the published-episode
    count is the number of media rows that reference [pid] and satisfy
    the five parts of the published predicate at the current time:
    reviewed, encoded, publishable, publish-start at or before now, and
    no end timestamp or an end timestamp at or after now. *)
Theorem media_count_published_spec (now : datetime) (media : list Media)
    (p : Podcast) (pid : Z) :
  podcasts.id p = Some pid →
  media_count_published now media p
  = length (filter (λ m, belongs_to pid m ∧ published now m) media).
Proof.
  intros Hid. unfold media_count_published.
  apply select_count_filter. intros m _.
  rewrite media_id_counted. by apply media_count_published_clause.
Qed.

(** The published count of the sample show at time 100 is the number of
    its published episodes (two of its three). *)
Lemma media_count_published_spec_witness :
  podcasts.id sample.show = Some 7 ∧
  media_count_published 100 sample.episodes sample.show
  = length (filter (λ m, belongs_to 7 m ∧ published 100 m) sample.episodes).
Proof.
  split; [reflexivity|].
  apply (media_count_published_spec 100 sample.episodes sample.show 7).
  reflexivity.
Defined.

(** C2: whatever the media table holds and whatever the time is, the
    published-episode count of a podcast is at most its total count. *)
Theorem media_count_published_le_media_count (now : datetime)
    (media : list Media) (p : Podcast) :
  (media_count_published now media p ≤ media_count media p)%nat.
Proof.
  unfold media_count_published, media_count.
  apply select_count_mono. intros m. unfold sql.selects.
  rewrite and__true, Forall_cons_iff. tauto.
Qed.

(** C3: for a podcast with identifier [pid], the total episode count is
    the number of media rows whose podcast reference is [pid]; when no
    row references it, both counts read zero. *)
Theorem media_count_spec (media : list Media) (p : Podcast) (pid : Z) :
  podcasts.id p = Some pid →
  media_count media p = length (filter (belongs_to pid) media) ∧
  (filter (belongs_to pid) media = [] →
   media_count media p = 0%nat ∧
   ∀ now, media_count_published now media p = 0%nat).
Proof.
  intros Hid.
  assert (media_count media p = length (filter (belongs_to pid) media)) as Hcount.
  { unfold media_count. apply select_count_filter. intros m _.
    rewrite media_id_counted. by apply media_count_clause. }
  split; [done|]. intros Hnone. rewrite Hnone in Hcount. simpl in Hcount.
  split; [done|]. intros now.
  assert (media_count_published now media p ≤ media_count media p)%nat; [|lia].
  unfold media_count_published, media_count.
  apply select_count_mono. intros m. unfold sql.selects.
  rewrite and__true, Forall_cons_iff. tauto.
Qed.

(** The total count of the sample show is the number of its episodes,
    and the same show under identifier 9, which no episode references,
    reads zero for both counts. *)
Lemma media_count_spec_witness :
  podcasts.id sample.show = Some 7 ∧
  media_count sample.episodes sample.show
  = length (filter (belongs_to 7) sample.episodes) ∧
  filter (belongs_to 9) sample.episodes = [] ∧
  media_count sample.episodes (store_id sample.show (Some 9)) = 0%nat ∧
  media_count_published 100 sample.episodes (store_id sample.show (Some 9))
  = 0%nat.
Proof.
  split; [reflexivity|]. split.
  - apply (media_count_spec sample.episodes sample.show 7). reflexivity.
  - split; [reflexivity|].
    pose proof (media_count_spec sample.episodes
                  (store_id sample.show (Some 9)) 9 eq_refl) as [_ Hzero].
    destruct (Hzero eq_refl) as [Htotal Hpublished].
    split; [exact Htotal | exact (Hpublished 100)].
Defined.

(** The example of the specification: three episodes, two published. *)
Example sample_counts :
  media_count sample.episodes sample.show = 3%nat ∧
  media_count_published 100 sample.episodes sample.show = 2%nat ∧
  media_count [] sample.show = 0%nat ∧
  media_count_published 100 [] sample.show = 0%nat.
Proof. vm_compute. done. Qed.

(** ** The slug validator *)

Section slug_facts.
Import slug.

Lemma is_word_not_upper ch : is_word ch = true → is_upper ch = false.
Proof.
  unfold is_word, is_lower, is_digit, is_upper.
  rewrite orb_true_iff, !andb_true_iff, andb_false_iff, !N.leb_le, !N.leb_gt.
  lia.
Qed.

Lemma is_word_not_separator ch : is_word ch = true → ch ≠ separator.
Proof. intros Hw ->. vm_compute in Hw. done. Qed.

Lemma lower_fixed ch : is_upper ch = false → lower ch = ch.
Proof. unfold lower. by intros ->. Qed.

(** What [collapse] emits: word characters and separators only. *)
Lemma collapse_url_safe in_run s : url_safe (collapse in_run s).
Proof.
  unfold url_safe. revert in_run.
  induction s as [|ch s IH]; intros in_run; simpl; [constructor|].
  destruct (is_word ch) eqn:Hw.
  - constructor; [by rewrite Hw | apply IH].
  - destruct in_run; [apply IH|]. constructor; [done | apply IH].
Qed.

Lemma url_safe_lower_case s : url_safe s → lower_case s.
Proof.
  unfold url_safe, lower_case. apply Forall_impl. intros ch Hch.
  destruct (is_word ch) eqn:Hw; [by apply is_word_not_upper|].
  simpl in Hch. apply Is_true_true, bool_decide_eq_true in Hch. by subst.
Qed.

Lemma collapse_separators in_run s :
  separator_normalized (collapse in_run s) ∧
  (in_run = true → ¬ leading_separator (collapse in_run s)).
Proof.
  revert in_run. induction s as [|ch s IH]; intros in_run; simpl; [tauto|].
  destruct (is_word ch) eqn:Hw.
  - destruct (IH false) as [Hnorm _]. split.
    + destruct (collapse false s) eqn:Hrest; [done|].
      split; [|done]. intros [-> _]. by vm_compute in Hw.
    + intros _ ->. by vm_compute in Hw.
  - destruct in_run; [apply IH|].
    destruct (IH true) as [Hnorm Hlead]. split; [|done].
    destruct (collapse true s) eqn:Hrest; [done|].
    split; [|done]. intros [_ ->]. by apply Hlead.
Qed.

Lemma collapse_collapse in_run s :
  collapse in_run (collapse in_run s) = collapse in_run s.
Proof.
  revert in_run. induction s as [|ch s IH]; intros in_run; simpl; [done|].
  destruct (is_word ch) eqn:Hw.
  - simpl. rewrite Hw. by rewrite IH.
  - destruct in_run; [apply IH|]. simpl. by rewrite IH.
Qed.

Lemma lower_case_fmap_lower s : lower_case s → lower <$> s = s.
Proof.
  unfold lower_case. induction 1 as [|ch s Hch _ IH]; [done|].
  by rewrite fmap_cons, lower_fixed, IH.
Qed.

Lemma slugify_slugify s : slugify (slugify s) = slugify s.
Proof.
  unfold slugify at 1.
  rewrite lower_case_fmap_lower
    by apply url_safe_lower_case, collapse_url_safe.
  apply collapse_collapse.
Qed.
End slug_facts.

(** The slug an assignment leaves in the object. *)
Lemma setattr_slug (p : Podcast) (w : assignment) :
  podcasts.slug (setattr p w)
  = match w with
    | assign_slug v => Some (slugify v)
    | _ => podcasts.slug p
    end.
Proof. by destruct w. Qed.

Lemma setattrs_slug (p : Podcast) (ws : list assignment) :
  podcasts.slug (setattrs p ws) = podcasts.slug p ∨
  ∃ v, assign_slug v ∈ ws ∧ podcasts.slug (setattrs p ws) = Some (slugify v).
Proof.
  unfold setattrs. induction ws as [|w ws IH] using rev_ind; [by left|].
  rewrite foldl_snoc, setattr_slug.
  destruct w; try (destruct IH as [IH|(v' & Hin & IH)];
    [ by left
    | right; exists v'; split; [apply elem_of_app; by left | done] ]).
  right. exists v. split; [|done]. apply elem_of_app. right. by left.
Qed.

(** C4: assigning any string to the slug attribute stores the slugified
    input, which is URL-safe, lower-case and separator-normalized; and
    after any run of assignments the slug is the one the object had or
    the slugified input of one of the slug assignments, so no assignment
    gets around the validator. *)
Theorem slug_assignment_is_slugified (p : Podcast) (value : unicode)
    (ws : list assignment) :
  podcasts.slug (setattr p (assign_slug value)) = Some (slugify value) ∧
  (slug.url_safe (slugify value) ∧
   slug.lower_case (slugify value) ∧
   slug.separator_normalized (slugify value)) ∧
  (podcasts.slug (setattrs p ws) = podcasts.slug p ∨
   ∃ v, assign_slug v ∈ ws ∧
        podcasts.slug (setattrs p ws) = Some (slugify v)).
Proof.
  split; [reflexivity|]. split; [|apply setattrs_slug].
  split; [apply collapse_url_safe|].
  split; [apply url_safe_lower_case, collapse_url_safe|].
  apply collapse_separators.
Qed.

(** C5: slugifying twice is slugifying once, for the function and for
    the validator that applies it. *)
Theorem slugify_idempotent (s : unicode) :
  slugify (slugify s) = slugify s ∧
  ∀ self key,
    validate_slug self key (validate_slug self key s) = validate_slug self key s.
Proof.
  split; [apply slugify_slugify|]. intros self key. apply slugify_slugify.
Qed.

Example slugify_samples :
  slugify (u "Morning Show!") = u "morning-show-" ∧
  slugify (u "morning  show?") = u "morning-show-" ∧
  slugify (u "A_b  C") = u "a-b-c" ∧
  slugify (slugify (u "  Hello,   World ")) = u "-hello-world-".
Proof. vm_compute. done. Qed.

(** ** Inserting podcasts *)

Lemma bind_raise {A B} (e : IntegrityError) (k : A → result B) :
  bind (raise e) k = raise e.
Proof. reflexivity. Qed.

Lemma bind_ret {A B} (a : A) (k : A → result B) : bind (ret a) k = k a.
Proof. reflexivity. Qed.

Lemma not_null_Some {A} (column : attribute) (v : option A) :
  is_Some v → not_null column v = ret ().
Proof. by intros [x ->]. Qed.

Lemma unique_taken {A} `{EqDecision A} column (col : Podcast → option A)
    (table : list Podcast) (p : Podcast) :
  is_Some (col p) → col p ∈ col <$> table →
  unique column col table p = raise (unique_violation column).
Proof.
  intros [v Hv] Hin. unfold unique. rewrite Hv in *. by rewrite decide_True.
Qed.

Lemma unique_free {A} `{EqDecision A} column (col : Podcast → option A)
    (table : list Podcast) (p : Podcast) :
  col p ∉ col <$> table → unique column col table p = ret ().
Proof.
  intros Hin. unfold unique. destruct (col p); [|done]. by rewrite decide_False.
Qed.

(** The defaults touch the key and the two timestamps only. *)
Lemma with_defaults_slug keys now table p :
  podcasts.slug (with_defaults keys now table p) = podcasts.slug p.
Proof. reflexivity. Qed.

Lemma with_defaults_id keys now table p :
  podcasts.id (with_defaults keys now table p)
  = Some (default (next_id keys (podcasts.id <$> table)) (podcasts.id p)).
Proof. reflexivity. Qed.

(** A row whose slug is taken is never stored. *)
Lemma insert_slug_taken keys now table p :
  is_Some (podcasts.slug p) →
  podcasts.slug p ∈ podcasts.slug <$> table →
  ∃ e, insert keys now table p = raise e.
Proof.
  intros Hslug Htaken. unfold insert. cbv zeta.
  rewrite <- (with_defaults_slug keys now table p) in Hslug, Htaken.
  generalize dependent (with_defaults keys now table p). intros row Hslug Htaken.
  do 7 match goal with
  | |- ∃ e, bind ?m _ = raise e =>
      destruct m as [e'|[]]; [by exists e' | rewrite bind_ret]
  end.
  rewrite unique_taken by done. by eexists.
Qed.

(** The insert of a new, complete podcast is decided by its slug. *)
Lemma insert_new_and_complete keys now table p :
  new_and_complete p → is_Some (podcasts.slug p) →
  insert keys now table p
  = if decide (podcasts.slug p ∈ podcasts.slug <$> table)
    then raise (unique_violation a_slug)
    else ret (table ++ [with_defaults keys now table p]).
Proof.
  intros (Hid & Htitle & Hname & Hemail) Hslug. unfold insert.
  rewrite !not_null_Some, !bind_ret by done.
  rewrite unique_free, bind_ret.
  - unfold unique. rewrite with_defaults_slug.
    destruct Hslug as [v ->]. by case_decide.
  - rewrite with_defaults_id, Hid. apply next_id_unused.
Qed.

Lemma new_and_complete_set_slug p value :
  new_and_complete p → new_and_complete (setattr p (assign_slug value)).
Proof. done. Qed.

(** C6, as the specification states it, fails: assigning "morning  show?"
    to a new podcast while the sample show holds the slug it normalizes
    to leaves both with the same slug. *)
Lemma slug_collision_not_disambiguated :
  ¬ disambiguated_on_collision sample.show new_podcast (u "morning  show?").
Proof. intros Hclaim. by apply Hclaim. Qed.

(** C6 (amended): when the normalized value of an assigned slug is the
    slug of a podcast in the table, the assignment stores that same
    value with no suffix, so the two podcasts hold equal slugs, and the
    row is never stored: the insert raises, with the uniqueness
    violation on slug when the podcast is new and otherwise complete. *)
Theorem slug_collision_kept_until_insert (keys : autoincrement)
    (now : datetime) (table : list Podcast) (existing p : Podcast)
    (value : unicode) :
  existing ∈ table →
  podcasts.slug existing = Some (slugify value) →
  podcasts.slug (setattr p (assign_slug value)) = podcasts.slug existing ∧
  (∃ e, insert keys now table (setattr p (assign_slug value)) = raise e) ∧
  (new_and_complete p →
   insert keys now table (setattr p (assign_slug value))
   = raise (unique_violation a_slug)).
Proof.
  intros Hin Hslug.
  assert (podcasts.slug (setattr p (assign_slug value))
          ∈ podcasts.slug <$> table) as Htaken.
  { simpl. unfold validate_slug. rewrite <- Hslug.
    by apply list_elem_of_fmap_2. }
  split; [by rewrite Hslug|].
  split; [apply insert_slug_taken; [by eexists | done]|].
  intros Hnew. rewrite insert_new_and_complete; [by rewrite decide_True|..].
  - by apply new_and_complete_set_slug.
  - by eexists.
Qed.

(** With the sample show stored, the other show's slug normalizes to
    the stored one, is kept as it is, and the insert is refused. *)
Lemma slug_collision_kept_until_insert_witness :
  let table := [with_defaults rowid_keys 0 [] sample.show] in
  let existing := with_defaults rowid_keys 0 [] sample.show in
  existing ∈ table ∧
  podcasts.slug existing = Some (slugify (u "morning  show?")) ∧
  podcasts.slug (setattr sample.other_show (assign_slug (u "morning  show?")))
  = podcasts.slug existing ∧
  insert rowid_keys 1 table (setattr sample.other_show (assign_slug (u "morning  show?")))
  = raise (unique_violation a_slug).
Proof.
  split; [by left|]. split; [reflexivity|].
  pose proof (slug_collision_kept_until_insert rowid_keys 1
                [with_defaults rowid_keys 0 [] sample.show]
                (with_defaults rowid_keys 0 [] sample.show) sample.other_show
                (u "morning  show?") (list_elem_of_here _ _) eq_refl)
    as (Hsame & _ & Hrefused).
  split; [exact Hsame|].
  apply Hrefused. repeat split; by eexists.
Defined.

(** C7: two new, complete podcasts whose slugs normalize to one value
    that the table does not hold: the first insert stores its row, the
    second raises the uniqueness violation on slug, and a flush of both
    ends with that very error. *)
Theorem duplicate_slug_raises_on_second_insert (keys : autoincrement)
    (now : datetime) (table : list Podcast) (p1 p2 : Podcast)
    (v1 v2 : unicode) :
  slugify v1 = slugify v2 →
  new_and_complete p1 →
  new_and_complete p2 →
  Some (slugify v1) ∉ podcasts.slug <$> table →
  let q1 := setattr p1 (assign_slug v1) in
  let q2 := setattr p2 (assign_slug v2) in
  ∃ table',
    insert keys now table q1 = ret table' ∧
    insert keys now table' q2 = raise (unique_violation a_slug) ∧
    flush keys now table [q1; q2] = raise (unique_violation a_slug).
Proof.
  intros Hsame Hnew1 Hnew2 Hfree q1 q2.
  exists (table ++ [with_defaults keys now table q1]).
  assert (insert keys now table q1 = ret (table ++ [with_defaults keys now table q1]))
    as Hfirst.
  { rewrite insert_new_and_complete; [by rewrite decide_False|..].
    - by apply new_and_complete_set_slug.
    - by eexists. }
  assert (insert keys now (table ++ [with_defaults keys now table q1]) q2
          = raise (unique_violation a_slug)) as Hsecond.
  { rewrite insert_new_and_complete; [rewrite decide_True; [done|]|..].
    - rewrite fmap_app. apply elem_of_app. right. simpl.
      unfold validate_slug. rewrite Hsame. by left.
    - by apply new_and_complete_set_slug.
    - by eexists. }
  split; [done|]. split; [done|].
  simpl. rewrite Hfirst, bind_ret, Hsecond. reflexivity.
Qed.

(** The sample show and the other show normalize to one slug: on an
    empty table the first is stored and the second is refused. *)
Lemma duplicate_slug_raises_on_second_insert_witness :
  slugify (u "Morning Show!") = slugify (u "morning  show?") ∧
  new_and_complete sample.other_show ∧
  new_and_complete sample.late_show ∧
  (Some (slugify (u "Morning Show!")) ∉ podcasts.slug <$> []) ∧
  ∃ table',
    insert rowid_keys 5 [] (setattr sample.other_show (assign_slug (u "Morning Show!")))
    = ret table' ∧
    insert rowid_keys 5 table'
      (setattr sample.late_show (assign_slug (u "morning  show?")))
    = raise (unique_violation a_slug) ∧
    flush rowid_keys 5 []
      [ setattr sample.other_show (assign_slug (u "Morning Show!"));
        setattr sample.late_show (assign_slug (u "morning  show?")) ]
    = raise (unique_violation a_slug).
Proof.
  assert (new_and_complete sample.other_show) as Hother
    by (repeat split; by eexists).
  assert (new_and_complete sample.late_show) as Hlate
    by (repeat split; by eexists).
  assert (Some (slugify (u "Morning Show!")) ∉ podcasts.slug <$> [])
    as Hfree by (intros Hin; inversion Hin).
  split; [reflexivity|]. split; [exact Hother|]. split; [exact Hlate|].
  split; [exact Hfree|].
  exact (duplicate_slug_raises_on_second_insert rowid_keys 5 []
           sample.other_show
           sample.late_show (u "Morning Show!") (u "morning  show?")
           eq_refl Hother Hlate Hfree).
Defined.

Example insert_samples :
  insert rowid_keys 5 [] new_podcast = raise (not_null_violation a_slug) ∧
  insert rowid_keys 5 [] (setattr new_podcast (assign_slug (u "x")))
  = raise (not_null_violation a_title) ∧
  flush rowid_keys 5 [] [sample.show; sample.other_show] = raise (unique_violation a_slug) ∧
  match flush rowid_keys 5 [] [sample.other_show; sample.late_show] with
  | inr table => podcasts.id <$> table
  | inl _ => []
  end = [Some 1; Some 2].
Proof. vm_compute. done. Qed.

(** ** The explicit flag *)

(** C8: writing True, then None, then False to [explicit] and reading
    after each write gives 'yes', no advisory and 'clean', in that
    order, and these are three different states. *)
Theorem explicit_is_tri_state (p : Podcast) :
  let p1 := setattr p (assign_explicit (Some true)) in
  let p2 := setattr p1 (assign_explicit None) in
  let p3 := setattr p2 (assign_explicit (Some false)) in
  [get_explicit p1; get_explicit p2; get_explicit p3]
  = [Some true; None; Some false] ∧
  explicit_meaning <$> [get_explicit p1; get_explicit p2; get_explicit p3]
  = [yes; no_advisory; clean] ∧
  NoDup [yes; no_advisory; clean].
Proof.
  split; [reflexivity|]. split; [reflexivity|].
  repeat constructor; rewrite ?elem_of_cons, ?elem_of_nil; intuition congruence.
Qed.

(** The reading is faithful: different stored values read differently. *)
Lemma explicit_meaning_inj (a b : option bool) :
  explicit_meaning a = explicit_meaning b → a = b.
Proof. by destruct a as [[]|], b as [[]|]. Qed.

(** ** The composite author *)






Example author_samples :
  (read_author new_instance).1 = None ∧
  (read_author (write new_instance (assign_author_name (Some (u "Ann"))))).1
  = Some (Author_init (Some (u "Ann")) None) ∧
  (read_author (loaded new_podcast)).1 = Some (Author_init None None) ∧
  podcasts.author_name
    (columns (write_author (loaded sample.show) None)) = None.
Proof. vm_compute. done. Qed.

(** ** Default ordering *)

Section ordering_facts.
Variable collate_leb : unicode → unicode → bool.
Hypothesis collate_total : ∀ x y, collate_leb x y ∨ collate_leb y x.
Hypothesis collate_trans :
  ∀ x y z, collate_leb x y → collate_leb y z → collate_leb x z.

Lemma key_le_total a b :
  query.key_le collate_leb a b ∨ query.key_le collate_leb b a.
Proof. destruct a, b; simpl; auto. Qed.

Lemma key_le_trans a b c :
  query.key_le collate_leb a b → query.key_le collate_leb b c →
  query.key_le collate_leb a c.
Proof. destruct a, b, c; simpl; try tauto. apply collate_trans. Qed.

Lemma ordered_by_total col : Total (query.ordered_by collate_leb col).
Proof. intros p q. apply key_le_total. Qed.

Lemma ordered_by_trans col : Transitive (query.ordered_by collate_leb col).
Proof. intros p q r. apply key_le_trans. Qed.

Lemma all_sorted (q : query.Query) (table : list Podcast) :
  StronglySorted
    (query.ordered_by collate_leb
       (default query.mapper_order_by (query.order_by q)))
    (query.all collate_leb q table) ∧
  query.all collate_leb q table ≡ₚ filter (λ p, query.criterion q p) table.
Proof.
  unfold query.all. split.
  - apply StronglySorted_merge_sort;
      [apply ordered_by_trans | apply ordered_by_total].
  - apply merge_sort_Permutation.
Qed.
End ordering_facts.

Section binary_collation.
Import query.

Lemma ltb_True (a b : N) : (a <? b)%N ↔ (a < b)%N.
Proof. by rewrite Is_true_true, N.ltb_lt. Qed.

Lemma eqb_True (a b : N) : (a =? b)%N ↔ a = b.
Proof. by rewrite Is_true_true, N.eqb_eq. Qed.

Lemma binary_leb_total x y : binary_leb x y ∨ binary_leb y x.
Proof.
  revert y. induction x as [|a x IH]; intros [|b y]; simpl; auto.
  rewrite !orb_True, !andb_True, !ltb_True, !eqb_True.
  destruct (N.lt_total a b) as [Hlt|[->|Hgt]]; [by auto | | by auto].
  destruct (IH y); auto.
Qed.

Lemma binary_leb_trans x y z :
  binary_leb x y → binary_leb y z → binary_leb x z.
Proof.
  revert y z. induction x as [|a x IH]; intros [|b y] [|c z]; simpl; try done.
  rewrite !orb_True, !andb_True, !ltb_True, !eqb_True.
  specialize (IH y z). intros [?|[-> ?]] [?|[-> ?]]; auto; left; lia.
Qed.
End binary_collation.

(** C10: under a total, transitive collation, every query on Podcast
    that names no ordering returns the rows meeting its criterion
    ordered by title: every row's title is at or before the title of
    every later row. *)
Theorem default_order_is_title (collate_leb : unicode → unicode → bool)
    (q : query.Query) (table : list Podcast) :
  (∀ x y, collate_leb x y ∨ collate_leb y x) →
  (∀ x y z, collate_leb x y → collate_leb y z → collate_leb x z) →
  query.order_by q = None →
  StronglySorted (query.ordered_by collate_leb podcasts.title)
    (query.all collate_leb q table) ∧
  query.all collate_leb q table ≡ₚ filter (λ p, query.criterion q p) table.
Proof.
  intros Htotal Htrans Hnone.
  pose proof (all_sorted collate_leb Htotal Htrans q table) as Hall.
  by rewrite Hnone in Hall.
Qed.

(** Three stored shows come back as Another Morning Show, Late Show,
    Morning Show under the binary collation. *)
Lemma default_order_is_title_witness :
  let table := [sample.show; sample.other_show; sample.late_show] in
  query.order_by query.Podcast_query = None ∧
  StronglySorted (query.ordered_by query.binary_leb podcasts.title)
    (query.all query.binary_leb query.Podcast_query table) ∧
  query.all query.binary_leb query.Podcast_query table
  ≡ₚ filter (λ p, query.criterion query.Podcast_query p) table.
Proof.
  split; [reflexivity|].
  exact (default_order_is_title query.binary_leb query.Podcast_query
           [sample.show; sample.other_show; sample.late_show]
           binary_leb_total binary_leb_trans eq_refl).
Defined.

Example default_order_sample :
  podcasts.title <$>
    query.all query.binary_leb query.Podcast_query
      [sample.show; sample.other_show; sample.late_show]
  = [Some (u "Another Morning Show"); Some (u "Late Show");
     Some (u "Morning Show")].
Proof. vm_compute. done. Qed.

(** ** More on the derived counters *)

Section count_facts.
Context {R A : Type} (col : R → option A).

Lemma select_count_app (w : R → sql.truth) (rows1 rows2 : list R) :
  sql.select_count col w (rows1 ++ rows2)
  = (sql.select_count col w rows1 + sql.select_count col w rows2)%nat.
Proof.
  unfold sql.select_count. by rewrite list.filter_app, length_app.
Qed.

Lemma select_count_cons (w : R → sql.truth) (r : R) (rows : list R) :
  sql.select_count col w (r :: rows)
  = ((if decide (sql.counted col w r) then 1 else 0)
     + sql.select_count col w rows)%nat.
Proof.
  unfold sql.select_count. rewrite filter_cons.
  by destruct (decide (sql.counted col w r)).
Qed.

(** As [select_count_mono], with the implication asked of the rows of
    the table only. *)
Lemma select_count_mono_in (w1 w2 : R → sql.truth) (rows : list R) :
  (∀ r, r ∈ rows → sql.selects (w1 r) → sql.selects (w2 r)) →
  (sql.select_count col w1 rows ≤ sql.select_count col w2 rows)%nat.
Proof.
  induction rows as [|r rows IH]; intros Himp; [done|].
  rewrite !select_count_cons.
  assert (sql.select_count col w1 rows ≤ sql.select_count col w2 rows)%nat
    by (apply IH; intros; apply Himp; [by right | done]).
  destruct (decide (sql.counted col w1 r)) as [[H1 Hc]|],
           (decide (sql.counted col w2 r)) as [|Hn]; try lia.
  destruct Hn. split; [apply Himp; [by left | done] | done].
Qed.
End count_facts.

(** The rows of a predicate split by a second one. *)
Lemma length_filter_split {B} (P Q : B → Prop) `{∀ x, Decision (P x)}
    `{∀ x, Decision (Q x)} (l : list B) :
  length (filter P l)
  = (length (filter (λ x, P x ∧ Q x) l)
     + length (filter (λ x, P x ∧ ¬ Q x) l))%nat.
Proof.
  induction l as [|x l IH]; [done|]. rewrite !filter_cons.
  destruct (decide (P x)), (decide (Q x)),
    (decide (P x ∧ Q x)), (decide (P x ∧ ¬ Q x)); simpl; try tauto; lia.
Qed.

(** Whether one row is counted, for a podcast with identifier [pid]. *)
Lemma media_count_row (p : Podcast) (pid : Z) (m : Media) :
  podcasts.id p = Some pid →
  sql.counted media.c.id
    (λ m, sql.eq (media.c.podcast_id m) (podcasts.id p)) m
  ↔ belongs_to pid m.
Proof. intros Hid. rewrite media_id_counted. by apply media_count_clause. Qed.

(** X1: one more media row raises the total count of a podcast by one
    when the row references the podcast and leaves it as it is when it
    does not; the published count rises by one when the row also meets
    the published predicate. *)
Theorem counts_of_added_episode (now : datetime) (media : list Media)
    (p : Podcast) (pid : Z) (m : Media) :
  podcasts.id p = Some pid →
  media_count (media ++ [m]) p
  = (media_count media p + (if decide (belongs_to pid m) then 1 else 0))%nat ∧
  media_count_published now (media ++ [m]) p
  = (media_count_published now media p
     + (if decide (belongs_to pid m ∧ published now m) then 1 else 0))%nat.
Proof.
  intros Hid. unfold media_count, media_count_published.
  rewrite !select_count_app, !select_count_cons. unfold sql.select_count at 2 4.
  simpl. rewrite !Nat.add_0_r. split; f_equal.
  - destruct (decide (sql.counted _ _ m)) as [Hc|Hc],
      (decide (belongs_to pid m)) as [Hb|Hb]; try done;
      apply (media_count_row p pid m Hid) in Hc || apply (media_count_row p pid m Hid) in Hb;
      done.
  - destruct (decide (sql.counted _ _ m)) as [Hc|Hc],
      (decide (belongs_to pid m ∧ published now m)) as [Hb|Hb]; try done;
      rewrite media_id_counted, (media_count_published_clause now p pid m Hid)
        in Hc; done.
Qed.

Lemma counts_of_added_episode_witness :
  podcasts.id sample.show = Some 7 ∧
  media_count (sample.episodes ++ [sample.episode 5 (Some 7) false None None])
    sample.show
  = (media_count sample.episodes sample.show + 1)%nat ∧
  media_count_published 100
    (sample.episodes ++ [sample.episode 5 (Some 7) false None None])
    sample.show
  = (media_count_published 100 sample.episodes sample.show + 0)%nat.
Proof.
  split; [reflexivity|].
  exact (counts_of_added_episode 100 sample.episodes sample.show 7
           (sample.episode 5 (Some 7) false None None) eq_refl).
Defined.

Lemma sum_list_cons (x : nat) (l : list nat) :
  sum_list (x :: l) = (x + sum_list l)%nat.
Proof. reflexivity. Qed.

Lemma sum_list_fmap_zero {B} (f : B → nat) (l : list B) :
  (∀ x, x ∈ l → f x = 0%nat) → sum_list (f <$> l) = 0%nat.
Proof.
  induction l as [|x l IH]; intros Hzero; [done|].
  rewrite fmap_cons, sum_list_cons, IH, Hzero; [done | by left |].
  intros y Hy. apply Hzero. by right.
Qed.

Lemma sum_list_fmap_split {B} (f g h : B → nat) (l : list B) :
  (∀ x, f x = (g x + h x)%nat) →
  sum_list (f <$> l) = (sum_list (g <$> l) + sum_list (h <$> l))%nat.
Proof.
  intros Hsplit. induction l as [|x l IH]; [done|].
  rewrite !fmap_cons, !sum_list_cons, IH, Hsplit. lia.
Qed.

(** One media row is counted for at most one of several podcasts with
    different identifiers. *)
Lemma row_counted_once (m : Media) (ps : list Podcast) :
  NoDup (podcasts.id <$> ps) →
  (sum_list ((λ p, if decide (sql.counted media.c.id
                       (λ m, sql.eq (media.c.podcast_id m) (podcasts.id p)) m)
                   then 1 else 0)%nat <$> ps) ≤ 1)%nat.
Proof.
  match goal with |- context [sum_list (?f <$> ps)] => set (ind := f) end.
  induction ps as [|p ps IH]; [simpl; lia|].
  rewrite !fmap_cons, sum_list_cons, list.NoDup_cons.
  intros [Hfresh Hnodup]. specialize (IH Hnodup).
  destruct (decide (sql.counted media.c.id
              (λ m, sql.eq (media.c.podcast_id m) (podcasts.id p)) m))
    as [Hp|Hp].
  - rewrite sum_list_fmap_zero; [unfold ind; destruct (decide _); lia|].
    intros q Hq. unfold ind. destruct (decide _) as [Hcq|]; [|done].
    destruct Hfresh. clear IH. clear ind.
    apply media_id_counted in Hp, Hcq. unfold sql.selects in Hp, Hcq.
    destruct (media.c.podcast_id m) as [k|]; [|done].
    destruct (podcasts.id p) as [i|] eqn:Hi; [|done].
    destruct (podcasts.id q) as [j|] eqn:Hj; [|done].
    rewrite eq_true in Hp, Hcq.
    replace i with j by congruence. rewrite <- Hj.
    by apply list_elem_of_fmap_2.
  - unfold ind at 1. rewrite decide_False by done. exact IH.
Qed.

(** X2: podcasts with pairwise different identifiers share no episode:
    their total counts add up to at most the number of media rows. *)
Theorem media_counts_share_no_row (media : list Media) (ps : list Podcast) :
  NoDup (podcasts.id <$> ps) →
  (sum_list (media_count media <$> ps) ≤ length media)%nat.
Proof.
  intros Hnodup. induction media as [|m media IH].
  - rewrite sum_list_fmap_zero; done.
  - pose proof (row_counted_once m ps Hnodup) as Hm.
    rewrite (sum_list_fmap_split (media_count (m :: media))
               (λ p, if decide (sql.counted media.c.id
                        (λ m, sql.eq (media.c.podcast_id m) (podcasts.id p)) m)
                     then 1 else 0)%nat
               (media_count media) ps)
      by (intros p; unfold media_count; by rewrite select_count_cons).
    simpl length. lia.
Qed.

Lemma media_counts_share_no_row_witness :
  NoDup (podcasts.id <$> [sample.show; store_id sample.show (Some 8)]) ∧
  (sum_list (media_count sample.episodes
               <$> [sample.show; store_id sample.show (Some 8%Z)])
   ≤ length sample.episodes)%nat.
Proof.
  assert (NoDup (podcasts.id <$> [sample.show; store_id sample.show (Some 8)]))
    as Hnodup.
  { apply list.NoDup_cons. split.
    - intros Hin. apply list_elem_of_singleton in Hin. discriminate Hin.
    - apply NoDup_singleton. }
  split; [exact Hnodup|].
  exact (media_counts_share_no_row sample.episodes
           [sample.show; store_id sample.show (Some 8)] Hnodup).
Defined.

(** X3: as time passes the published count of a podcast cannot fall as
    long as no row of the table has reached its end timestamp. *)
Theorem published_count_grows_until_an_end (now later : datetime)
    (media : list Media) (p : Podcast) :
  now ≤ later →
  (∀ m, m ∈ media → not_ended_at later m) →
  (media_count_published now media p
   ≤ media_count_published later media p)%nat.
Proof.
  intros Hlater Hopen. unfold media_count_published.
  apply select_count_mono_in. intros m Hin. specialize (Hopen m Hin).
  unfold sql.selects.
  rewrite !and__true, !Forall_cons_iff, !or__true, !Exists_cons, !Exists_nil.
  rewrite !le_true, !ge_true, !is_null_true.
  unfold media.c.publish_until in *. unfold not_ended_at in Hopen.
  intros (? & ? & ? & ? & (start & ? & ?) & _ & _).
  repeat (split; [done|]). split; [exists start; split; [done | lia]|].
  split; [|done].
  destruct (media.publish_until m) as [stop|]; [|by left].
  right. left. by exists stop.
Qed.

Lemma published_count_grows_until_an_end_witness :
  100 ≤ 200 ∧
  (∀ m, m ∈ take 3 sample.episodes → not_ended_at 200 m) ∧
  (media_count_published 100 (take 3 sample.episodes) sample.show
   ≤ media_count_published 200 (take 3 sample.episodes) sample.show)%nat.
Proof.
  assert (∀ m, m ∈ take 3 sample.episodes → not_ended_at 200 m) as Hopen.
  { intros m Hin. simpl in Hin.
    repeat (apply elem_of_cons in Hin as [->|Hin]; [exact I|]).
    by apply elem_of_nil in Hin. }
  split; [lia|]. split; [exact Hopen|].
  apply (published_count_grows_until_an_end 100 200 (take 3 sample.episodes)
           sample.show); [lia | exact Hopen].
Defined.

(** X4: the episodes of a podcast split into the published and the
    unpublished ones: the total count is the published count plus the
    number of its rows that fail the published predicate. *)
Theorem media_count_is_published_plus_rest (now : datetime)
    (media : list Media) (p : Podcast) (pid : Z) :
  podcasts.id p = Some pid →
  media_count media p
  = (media_count_published now media p
     + length (filter (λ m, belongs_to pid m ∧ ¬ published now m) media))%nat.
Proof.
  intros Hid.
  unfold media_count.
  rewrite (select_count_filter media.c.id _ (belongs_to pid))
    by (intros m _; by apply media_count_row).
  unfold media_count_published.
  rewrite (select_count_filter media.c.id _
             (λ m, belongs_to pid m ∧ published now m)).
  - apply length_filter_split.
  - intros m _. rewrite media_id_counted.
    by apply media_count_published_clause.
Qed.

Lemma media_count_is_published_plus_rest_witness :
  podcasts.id sample.show = Some 7 ∧
  media_count sample.episodes sample.show
  = (media_count_published 100 sample.episodes sample.show
     + length (filter (λ m, belongs_to 7 m ∧ ¬ published 100 m)
                 sample.episodes))%nat.
Proof.
  split; [reflexivity|].
  exact (media_count_is_published_plus_rest 100 sample.episodes sample.show 7
           eq_refl).
Defined.

(** ** The episodes relation and its backref *)

(** The only row of a table with the key of one of its rows is that
    row, when keys are not repeated. *)
Lemma filter_by_key {B K} `{EqDecision K} (key : B → K) (P : B → Prop)
    `{∀ x, Decision (P x)} (l : list B) (x : B) :
  NoDup (key <$> l) → x ∈ l → P x → (∀ y, P y → key y = key x) →
  filter P l = [x].
Proof.
  intros Hnodup Hin HPx Hkey.
  induction l as [|y l IH]; [by apply elem_of_nil in Hin|].
  rewrite fmap_cons, list.NoDup_cons in Hnodup. destruct Hnodup as [Hfresh Hnodup].
  assert (∀ z, z ∈ l → key z ≠ key y) as Hother.
  { intros z Hz Heq. apply Hfresh. rewrite <- Heq. by apply list_elem_of_fmap_2. }
  apply elem_of_cons in Hin as [->|Hin].
  - rewrite filter_cons_True by done. f_equal.
    clear IH. induction l as [|z l IHl]; [done|].
    rewrite filter_cons_False.
    + apply IHl.
      * intros Hy. apply Hfresh. rewrite fmap_cons. by right.
      * by apply list.NoDup_cons in Hnodup as [_ ?].
      * intros w Hw. apply Hother. by right.
    + intros HPz. apply (Hother z); [by left | by apply Hkey].
  - rewrite filter_cons_False; [by apply IH|].
    intros HPy. apply (Hother x Hin). symmetry. by apply Hkey.
Qed.

(** X6: the backref undoes the relation: in a table whose keys are not
    repeated, every media row that [podcast.media] loads for a stored
    podcast has that podcast as its [podcast], in whatever order the
    rows are loaded. *)
Theorem media_podcast_of_podcast_media (row_order : list Media → list Media)
    (table : list Podcast) (media : list Media) (p : Podcast) (m : Media) :
  (∀ rows, row_order rows ≡ₚ rows) →
  NoDup (podcasts.id <$> table) →
  p ∈ table →
  m ∈ Podcast_media row_order media p →
  Media_podcast table m = Some p.
Proof.
  intros Horder Hnodup Hp Hm. unfold Podcast_media in Hm.
  rewrite Horder in Hm.
  apply list_elem_of_filter in Hm as [Hsel _]. unfold sql.selects in Hsel.
  unfold Media_podcast.
  destruct (media.c.podcast_id m) as [k|] eqn:Hk; [|done].
  destruct (podcasts.id p) as [i|] eqn:Hi; [|done].
  rewrite eq_true in Hsel. injection Hsel as ->.
  rewrite (filter_by_key podcasts.id _ table p); try done.
  - unfold sql.selects. rewrite Hi. by rewrite eq_true.
  - intros q Hq. unfold sql.selects in Hq. rewrite eq_true in Hq. congruence.
Qed.

Lemma media_podcast_of_podcast_media_witness :
  let table := [sample.show; store_id sample.late_show (Some 8)] in
  let m := sample.episode 1 (Some 7) true (Some 10) None in
  (∀ rows : list Media, reverse rows ≡ₚ rows) ∧
  NoDup (podcasts.id <$> table) ∧
  sample.show ∈ table ∧
  m ∈ Podcast_media reverse sample.episodes sample.show ∧
  Media_podcast table m = Some sample.show.
Proof.
  assert (NoDup (podcasts.id
                   <$> [sample.show; store_id sample.late_show (Some 8)]))
    as Hnodup.
  { apply list.NoDup_cons. split.
    - intros Hin. apply list_elem_of_singleton in Hin. discriminate Hin.
    - apply NoDup_singleton. }
  assert (sample.episode 1 (Some 7) true (Some 10) None
          ∈ Podcast_media reverse sample.episodes sample.show) as Hm.
  { unfold Podcast_media. apply elem_of_reverse. by left. }
  split; [apply reverse_Permutation|].
  split; [exact Hnodup|]. split; [by left|]. split; [exact Hm|].
  exact (media_podcast_of_podcast_media reverse
           [sample.show; store_id sample.late_show (Some 8)]
           sample.episodes sample.show _ reverse_Permutation Hnodup
           (list_elem_of_here _ _) Hm).
Defined.

(** ** Inserts and the constraints of the table *)

Lemma bind_ret_inv {A B} (m : result A) (k : A → result B) (b : B) :
  bind m k = ret b → ∃ a, m = ret a ∧ k a = ret b.
Proof. destruct m as [e|a]; [done|]. intros Hk. by exists a. Qed.

Lemma not_null_ret_inv {A} (column : attribute) (v : option A) (x : ()) :
  not_null column v = ret x → is_Some v.
Proof. destruct v; [by eexists | done]. Qed.

Lemma unique_ret_inv {A} `{EqDecision A} column (col : Podcast → option A)
    (table : list Podcast) (p : Podcast) (x : ()) :
  unique column col table p = ret x → is_Some (col p) →
  col p ∉ col <$> table.
Proof.
  unfold unique. intros Hu [v Hv]. rewrite Hv in *.
  by destruct (decide (Some v ∈ col <$> table)).
Qed.

(** What a successful insert says about the row and the table. *)
Lemma insert_ret_inv keys now table p table' :
  insert keys now table p = ret table' →
  table' = table ++ [with_defaults keys now table p] ∧
  complete (with_defaults keys now table p) ∧
  (podcasts.id (with_defaults keys now table p) ∉ podcasts.id <$> table) ∧
  (podcasts.slug (with_defaults keys now table p) ∉ podcasts.slug <$> table).
Proof.
  unfold insert. cbv zeta. intros Hins.
  apply bind_ret_inv in Hins as (? & Hslug%not_null_ret_inv & Hins).
  apply bind_ret_inv in Hins as (? & Hcreated%not_null_ret_inv & Hins).
  apply bind_ret_inv in Hins as (? & Hmodified%not_null_ret_inv & Hins).
  apply bind_ret_inv in Hins as (? & Htitle%not_null_ret_inv & Hins).
  apply bind_ret_inv in Hins as (? & Hname%not_null_ret_inv & Hins).
  apply bind_ret_inv in Hins as (? & Hemail%not_null_ret_inv & Hins).
  apply bind_ret_inv in Hins as (? & Hid & Hins).
  apply bind_ret_inv in Hins as (? & Huslug & Hins).
  injection Hins as <-.
  split; [done|]. split; [|split].
  - repeat split; try done; by eexists.
  - apply (unique_ret_inv _ _ _ _ _ Hid). by eexists.
  - by apply (unique_ret_inv _ _ _ _ _ Huslug).
Qed.

Lemma consistent_snoc (table : list Podcast) (row : Podcast) :
  consistent table → complete row →
  podcasts.id row ∉ podcasts.id <$> table →
  podcasts.slug row ∉ podcasts.slug <$> table →
  consistent (table ++ [row]).
Proof.
  intros (Hall & Hids & Hslugs) Hrow Hid Hslug. split; [|split].
  - apply Forall_app. split; [done|]. by constructor.
  - rewrite fmap_app. apply list.NoDup_app. split; [done|]. split.
    + intros x Hx Hin. apply list_elem_of_singleton in Hin. by subst.
    + apply NoDup_singleton.
  - rewrite fmap_app. apply list.NoDup_app. split; [done|]. split.
    + intros x Hx Hin. apply list_elem_of_singleton in Hin. by subst.
    + apply NoDup_singleton.
Qed.

(** X7: an insert keeps the table within its constraints: after a
    successful insert every row still has its NOT NULL columns, and no
    key and no slug occurs twice. *)
Theorem insert_keeps_table_consistent (keys : autoincrement)
    (now : datetime) (table table' : list Podcast) (p : Podcast) :
  consistent table →
  insert keys now table p = ret table' →
  consistent table'.
Proof.
  intros Hcons (-> & Hrow & Hid & Hslug)%insert_ret_inv.
  by apply consistent_snoc.
Qed.

Lemma insert_keeps_table_consistent_witness :
  consistent [] ∧
  insert rowid_keys 5 [] sample.other_show = ret [with_defaults rowid_keys 5 [] sample.other_show] ∧
  consistent [with_defaults rowid_keys 5 [] sample.other_show].
Proof.
  assert (consistent []) as Hnil.
  { split; [constructor|]. split; constructor. }
  split; [exact Hnil|]. split; [reflexivity|].
  exact (insert_keeps_table_consistent rowid_keys 5 [] _ sample.other_show
           Hnil eq_refl).
Defined.

(** X9: an insert succeeds only when slug, title, author_name and
    author_email are set; and an object with a slug but no title is
    refused with the NOT NULL violation on title, whatever the table
    holds (the unset timestamps before it get their defaults). *)
Theorem insert_requires_the_not_null_columns (keys : autoincrement)
    (now : datetime) (table : list Podcast) (p : Podcast) :
  (∀ table', insert keys now table p = ret table' →
     is_Some (podcasts.slug p) ∧ is_Some (podcasts.title p) ∧
     is_Some (podcasts.author_name p) ∧ is_Some (podcasts.author_email p)) ∧
  (is_Some (podcasts.slug p) → podcasts.title p = None →
   insert keys now table p = raise (not_null_violation a_title)).
Proof.
  split.
  - intros table' (_ & Hrow & _)%insert_ret_inv.
    destruct Hrow as (_ & ? & _ & _ & ? & ? & ?). done.
  - intros Hslug Htitle. unfold insert. cbv zeta.
    rewrite with_defaults_slug, not_null_Some, bind_ret by done.
    rewrite !not_null_Some, !bind_ret by (by eexists).
    change (podcasts.title (with_defaults keys now table p))
      with (podcasts.title p).
    by rewrite Htitle.
Qed.

(** ** Flushes *)

(** X11: a successful flush keeps the table within its constraints,
    leaves the stored rows in front as they were, and adds one row for
    each pending object. *)
Theorem flush_keeps_table_consistent (keys : autoincrement)
    (now : datetime) (table table' : list Podcast) (pending : list Podcast) :
  consistent table →
  flush keys now table pending = ret table' →
  consistent table' ∧
  (∃ rows, table' = table ++ rows ∧ length rows = length pending).
Proof.
  revert table. induction pending as [|p ps IH]; intros table Hcons Hflush.
  - injection Hflush as <-. split; [done|]. exists []. by rewrite app_nil_r.
  - simpl in Hflush.
    apply bind_ret_inv in Hflush as (table1 & Hins & Hflush).
    pose proof Hins as (-> & Hrow & Hid & Hslug)%insert_ret_inv.
    destruct (IH _ (consistent_snoc _ _ Hcons Hrow Hid Hslug) Hflush)
      as (Hcons' & rows & -> & Hlen).
    split; [done|]. exists (with_defaults keys now table p :: rows).
    split; [by rewrite <- app_assoc | simpl; by f_equal].
Qed.

Lemma flush_keeps_table_consistent_witness :
  let rows := [with_defaults rowid_keys 5 [] sample.other_show;
               with_defaults rowid_keys 5 [with_defaults rowid_keys 5 [] sample.other_show]
                 sample.late_show] in
  consistent [] ∧
  flush rowid_keys 5 [] [sample.other_show; sample.late_show] = ret rows ∧
  consistent rows.
Proof.
  assert (consistent []) as Hnil.
  { split; [constructor|]. split; constructor. }
  split; [exact Hnil|]. split; [reflexivity|].
  exact (proj1 (flush_keeps_table_consistent rowid_keys 5 [] _
                  [sample.other_show; sample.late_show] Hnil eq_refl)).
Defined.

(** X12: a flush succeeds only when the pending objects have pairwise
    different slugs and none of them is the slug of a stored row. *)
Theorem flush_needs_distinct_slugs (keys : autoincrement)
    (now : datetime) (table table' : list Podcast) (pending : list Podcast) :
  flush keys now table pending = ret table' →
  NoDup (podcasts.slug <$> pending) ∧
  ∀ p, p ∈ pending → podcasts.slug p ∉ podcasts.slug <$> table.
Proof.
  revert table. induction pending as [|p ps IH]; intros table Hflush.
  - split; [constructor|]. intros p Hp. by apply elem_of_nil in Hp.
  - simpl in Hflush.
    apply bind_ret_inv in Hflush as (table1 & Hins & Hflush).
    pose proof Hins as (-> & _ & _ & Hslug)%insert_ret_inv.
    rewrite with_defaults_slug in Hslug.
    destruct (IH _ Hflush) as (Hnodup & Hfree).
    assert (∀ q, q ∈ ps →
              podcasts.slug q ≠ podcasts.slug p ∧
              podcasts.slug q ∉ podcasts.slug <$> table) as Hrest.
    { intros q Hq. specialize (Hfree q Hq).
      rewrite fmap_app, elem_of_app in Hfree. split.
      - intros Heq. apply Hfree. right. rewrite Heq. by left.
      - intros Hin. apply Hfree. by left. }
    split.
    + rewrite fmap_cons. apply list.NoDup_cons. split; [|done].
      intros (q & Heq & Hq)%list_elem_of_fmap.
      by destruct (Hrest q Hq) as [Hne _].
    + intros q [->|Hq]%elem_of_cons; [done|]. by apply Hrest.
Qed.

Lemma flush_needs_distinct_slugs_witness :
  (∃ table', flush rowid_keys 5 [] [sample.other_show; sample.late_show] = ret table') ∧
  NoDup (podcasts.slug <$> [sample.other_show; sample.late_show]).
Proof.
  split; [by eexists|].
  exact (proj1 (flush_needs_distinct_slugs rowid_keys 5 [] _
                  [sample.other_show; sample.late_show] eq_refl)).
Defined.

Lemma filter_snoc_only {B} (P : B → Prop) `{∀ x, Decision (P x)}
    (l : list B) (x : B) :
  (∀ y, y ∈ l → ¬ P y) → P x → filter P (l ++ [x]) = [x].
Proof.
  intros Hnone Hx. rewrite list.filter_app, filter_cons_True by done.
  induction l as [|y l IH]; [done|].
  rewrite filter_cons_False by (apply Hnone; by left).
  apply IH. intros z Hz. apply Hnone. by right.
Qed.

(** X14: a stored podcast is found by its slug: after a successful
    insert the query filtered on the slug of the new row returns that
    row, the last of the table, and nothing else. *)
Theorem inserted_row_is_found_by_slug
    (collate_leb : unicode → unicode → bool) (keys : autoincrement)
    (now : datetime)
    (table table' : list Podcast) (p : Podcast) :
  insert keys now table p = ret table' →
  ∃ row,
    list.last table' = Some row ∧
    query.all collate_leb
      (query.Query_filter query.Podcast_query
         (λ q, bool_decide (podcasts.slug q = podcasts.slug p)))
      table'
    = [row].
Proof.
  intros (-> & _ & _ & Hslug)%insert_ret_inv.
  rewrite with_defaults_slug in Hslug.
  exists (with_defaults keys now table p). split; [apply list.last_snoc|].
  unfold query.all. rewrite filter_snoc_only; [reflexivity | |].
  - intros q Hq. simpl. rewrite bool_decide_eq_false_2; [simpl; tauto|].
    intros Heq. apply Hslug. rewrite <- Heq. by apply list_elem_of_fmap_2.
  - simpl. by rewrite bool_decide_eq_true_2.
Qed.

Lemma inserted_row_is_found_by_slug_witness :
  let table := [with_defaults rowid_keys 5 [] sample.show] in
  insert rowid_keys 6 table sample.late_show
  = ret (table ++ [with_defaults rowid_keys 6 table sample.late_show]) ∧
  ∃ row,
    list.last (table ++ [with_defaults rowid_keys 6 table sample.late_show]) = Some row ∧
    query.all query.binary_leb
      (query.Query_filter query.Podcast_query
         (λ q, bool_decide (podcasts.slug q = podcasts.slug sample.late_show)))
      (table ++ [with_defaults rowid_keys 6 table sample.late_show])
    = [row].
Proof.
  split; [reflexivity|].
  exact (inserted_row_is_found_by_slug query.binary_leb rowid_keys 6
           [with_defaults rowid_keys 5 [] sample.show] _ sample.late_show eq_refl).
Defined.

(** ** Updates *)

Lemma filter_all {B} (P : B → Prop) `{∀ x, Decision (P x)} (l : list B) :
  (∀ x, x ∈ l → P x) → filter P l = l.
Proof.
  induction l as [|x l IH]; intros Hall; [done|].
  rewrite filter_cons_True by (apply Hall; by left).
  f_equal. apply IH. intros y Hy. apply Hall. by right.
Qed.

Lemma fmap_fixed {B} (f : B → B) (l : list B) :
  (∀ x, x ∈ l → f x = x) → f <$> l = l.
Proof.
  induction l as [|x l IH]; intros Hfix; [done|].
  rewrite fmap_cons, Hfix by (by left).
  f_equal. apply IH. intros y Hy. apply Hfix. by right.
Qed.

(** The row an update writes. *)
Lemma update_row_columns now (old new : Podcast) :
  let row := if decide (podcasts.modified_on new = podcasts.modified_on old)
             then store_modified_on new (Some now) else new in
  same_assigned_columns row new ∧
  podcasts.id row = podcasts.id new ∧
  podcasts.created_on row = podcasts.created_on new ∧
  podcasts.modified_on row
  = if decide (podcasts.modified_on new = podcasts.modified_on old)
    then Some now else podcasts.modified_on new.
Proof. simpl. by destruct (decide _). Qed.

(** In a table whose keys are not repeated, the row loaded as [old]
    is the only one an update touches. *)
Lemma update_touches_one_row (table : list Podcast) (old row : Podcast) :
  NoDup (podcasts.id <$> table) → old ∈ table →
  ∃ l1 l2,
    table = l1 ++ old :: l2 ∧
    filter (λ q, podcasts.id q ≠ podcasts.id old) table = l1 ++ l2 ∧
    (λ q, if decide (podcasts.id q = podcasts.id old) then row else q)
      <$> table = l1 ++ row :: l2.
Proof.
  intros Hnodup (l1 & l2 & ->)%list_elem_of_split. exists l1, l2.
  rewrite fmap_app, fmap_cons in Hnodup.
  apply list.NoDup_app in Hnodup as (_ & Hl1 & Hl2).
  apply list.NoDup_cons in Hl2 as (Hl2 & _).
  assert (∀ q, q ∈ l1 → podcasts.id q ≠ podcasts.id old) as Hne1.
  { intros q Hq Heq. apply (Hl1 (podcasts.id q)).
    - by apply list_elem_of_fmap_2.
    - rewrite Heq. by left. }
  assert (∀ q, q ∈ l2 → podcasts.id q ≠ podcasts.id old) as Hne2.
  { intros q Hq Heq. apply Hl2. rewrite <- Heq. by apply list_elem_of_fmap_2. }
  split; [done|]. split.
  - rewrite list.filter_app, filter_cons_False by (by intros []).
    by rewrite !filter_all.
  - rewrite fmap_app, fmap_cons, decide_True by done.
    rewrite !fmap_fixed; [done | |];
      intros q Hq; by rewrite decide_False by auto.
Qed.

(** What a successful update that sends a statement says. *)
Lemma update_ret_inv now table old new table' :
  new ≠ old →
  update now table old new = ret table' →
  let row := if decide (podcasts.modified_on new = podcasts.modified_on old)
             then store_modified_on new (Some now) else new in
  let others := filter (λ q, podcasts.id q ≠ podcasts.id old) table in
  complete row ∧
  (podcasts.id row ∉ podcasts.id <$> others) ∧
  (podcasts.slug row ∉ podcasts.slug <$> others) ∧
  table' = (λ q, if decide (podcasts.id q = podcasts.id old) then row else q)
             <$> table.
Proof.
  intros Hne. unfold update. rewrite decide_False by done. cbv zeta.
  intros Hupd.
  apply bind_ret_inv in Hupd as (? & Hid%not_null_ret_inv & Hupd).
  apply bind_ret_inv in Hupd as (? & Hslug%not_null_ret_inv & Hupd).
  apply bind_ret_inv in Hupd as (? & Hcreated%not_null_ret_inv & Hupd).
  apply bind_ret_inv in Hupd as (? & Hmodified%not_null_ret_inv & Hupd).
  apply bind_ret_inv in Hupd as (? & Htitle%not_null_ret_inv & Hupd).
  apply bind_ret_inv in Hupd as (? & Hname%not_null_ret_inv & Hupd).
  apply bind_ret_inv in Hupd as (? & Hemail%not_null_ret_inv & Hupd).
  apply bind_ret_inv in Hupd as (? & Huid & Hupd).
  apply bind_ret_inv in Hupd as (? & Huslug & Hupd).
  injection Hupd as <-.
  split; [by repeat split|]. split; [|split; [|done]].
  - by apply (unique_ret_inv _ _ _ _ _ Huid).
  - by apply (unique_ret_inv _ _ _ _ _ Huslug).
Qed.

Lemma consistent_replace (l1 l2 : list Podcast) (old row : Podcast) :
  consistent (l1 ++ old :: l2) → complete row →
  podcasts.id row ∉ podcasts.id <$> l1 ++ l2 →
  podcasts.slug row ∉ podcasts.slug <$> l1 ++ l2 →
  consistent (l1 ++ row :: l2).
Proof.
  intros (Hall & Hids & Hslugs) Hrow Hid Hslug.
  rewrite fmap_app, elem_of_app in Hid.
  rewrite fmap_app, elem_of_app in Hslug.
  rewrite fmap_app, fmap_cons in Hids.
  rewrite fmap_app, fmap_cons in Hslugs.
  apply list.NoDup_app in Hids as (Hids1 & Hids12 & Hids2).
  apply list.NoDup_cons in Hids2 as (_ & Hids2).
  apply list.NoDup_app in Hslugs as (Hslugs1 & Hslugs12 & Hslugs2).
  apply list.NoDup_cons in Hslugs2 as (_ & Hslugs2).
  apply Forall_app in Hall as (Hall1 & Hall2).
  apply Forall_cons_iff in Hall2 as (_ & Hall2).
  split; [|split].
  - apply Forall_app. split; [done|]. by constructor.
  - rewrite fmap_app, fmap_cons. apply list.NoDup_app. split; [done|]. split.
    + intros x Hx [->|Hin]%elem_of_cons; [tauto|].
      apply (Hids12 x Hx). by right.
    + apply list.NoDup_cons. split; [tauto | done].
  - rewrite fmap_app, fmap_cons. apply list.NoDup_app. split; [done|]. split.
    + intros x Hx [->|Hin]%elem_of_cons; [tauto|].
      apply (Hslugs12 x Hx). by right.
    + apply list.NoDup_cons. split; [tauto | done].
Qed.

(** X15: an update keeps the table within its constraints and keeps
    its number of rows. *)
Theorem update_keeps_table_consistent (now : datetime)
    (table table' : list Podcast) (old new : Podcast) :
  consistent table →
  old ∈ table →
  update now table old new = ret table' →
  consistent table' ∧ length table' = length table.
Proof.
  intros Hcons Hold Hupd.
  destruct (decide (new = old)) as [->|Hne].
  - unfold update in Hupd. rewrite decide_True in Hupd by done.
    by injection Hupd as <-.
  - apply update_ret_inv in Hupd as (Hrow & Hid & Hslug & ->); [|done].
    split; [|by rewrite length_fmap].
    pose proof Hcons as (_ & Hnodup & _).
    destruct (update_touches_one_row table old
                (if decide (podcasts.modified_on new = podcasts.modified_on old)
                 then store_modified_on new (Some now) else new) Hnodup Hold)
      as (l1 & l2 & Htable & Hothers & ->).
    rewrite Hothers in Hid, Hslug. rewrite Htable in Hcons.
    by apply (consistent_replace l1 l2 old).
Qed.

(** X16: an update that changes some attribute rewrites the one row it
    was loaded from and no other: the row holds the columns of the
    object, with modified_on set to the current time unless the object
    was given a new modified_on, and created_on as the object has it. *)
Theorem update_stamps_modified_on (now : datetime)
    (table table' : list Podcast) (old new : Podcast) :
  consistent table →
  old ∈ table →
  new ≠ old →
  update now table old new = ret table' →
  ∃ l1 l2 row,
    table = l1 ++ old :: l2 ∧
    table' = l1 ++ row :: l2 ∧
    same_assigned_columns row new ∧
    podcasts.id row = podcasts.id new ∧
    podcasts.created_on row = podcasts.created_on new ∧
    podcasts.modified_on row
    = if decide (podcasts.modified_on new = podcasts.modified_on old)
      then Some now else podcasts.modified_on new.
Proof.
  intros (_ & Hnodup & _) Hold Hne Hupd.
  apply update_ret_inv in Hupd as (_ & _ & _ & ->); [|done].
  destruct (update_touches_one_row table old
              (if decide (podcasts.modified_on new = podcasts.modified_on old)
               then store_modified_on new (Some now) else new) Hnodup Hold)
    as (l1 & l2 & Htable & _ & ->).
  exists l1, l2. eexists. split; [done|]. split; [done|].
  apply update_row_columns.
Qed.

Lemma consistent_singleton (row : Podcast) : complete row → consistent [row].
Proof.
  intros Hrow. split; [by constructor|].
  split; apply NoDup_singleton.
Qed.

Lemma stored_show_complete : complete (with_defaults rowid_keys 5 [] sample.show).
Proof. repeat split; by eexists. Qed.

Lemma update_keeps_table_consistent_witness :
  let old := with_defaults rowid_keys 5 [] sample.show in
  let new := store_title old (Some (u "Evening Show")) in
  consistent [old] ∧
  old ∈ [old] ∧
  update 9 [old] old new = ret [store_modified_on new (Some 9)] ∧
  consistent [store_modified_on new (Some 9)] ∧
  length [store_modified_on new (Some 9)] = length [old].
Proof.
  pose proof (consistent_singleton _ stored_show_complete) as Hcons.
  split; [exact Hcons|]. split; [by left|]. split; [by vm_compute|].
  exact (update_keeps_table_consistent 9 [with_defaults rowid_keys 5 [] sample.show] _
           (with_defaults rowid_keys 5 [] sample.show)
           (store_title (with_defaults rowid_keys 5 [] sample.show)
              (Some (u "Evening Show")))
           Hcons (list_elem_of_here _ _) eq_refl).
Defined.

Lemma update_stamps_modified_on_witness :
  let old := with_defaults rowid_keys 5 [] sample.show in
  let new := store_title old (Some (u "Evening Show")) in
  consistent [old] ∧
  old ∈ [old] ∧
  new ≠ old ∧
  update 9 [old] old new = ret [store_modified_on new (Some 9)] ∧
  ∃ l1 l2 row,
    [old] = l1 ++ old :: l2 ∧
    [store_modified_on new (Some 9)] = l1 ++ row :: l2 ∧
    same_assigned_columns row new ∧
    podcasts.id row = podcasts.id new ∧
    podcasts.created_on row = podcasts.created_on new ∧
    podcasts.modified_on row
    = if decide (podcasts.modified_on new = podcasts.modified_on old)
      then Some 9 else podcasts.modified_on new.
Proof.
  pose proof (consistent_singleton _ stored_show_complete) as Hcons.
  assert (store_title (with_defaults rowid_keys 5 [] sample.show)
            (Some (u "Evening Show"))
          ≠ with_defaults rowid_keys 5 [] sample.show) as Hne.
  { intros Heq. apply (f_equal podcasts.title) in Heq. discriminate Heq. }
  split; [exact Hcons|]. split; [by left|]. split; [exact Hne|].
  split; [by vm_compute|].
  exact (update_stamps_modified_on 9 [with_defaults rowid_keys 5 [] sample.show] _
           (with_defaults rowid_keys 5 [] sample.show)
           (store_title (with_defaults rowid_keys 5 [] sample.show)
              (Some (u "Evening Show")))
           Hcons (list_elem_of_here _ _) Hne eq_refl).
Defined.

Example update_samples :
  let old := with_defaults rowid_keys 5 [] sample.show in
  update 9 [old] old old = ret [old] ∧
  update 9 [old] old (store_modified_on old (Some 7))
  = ret [store_modified_on old (Some 7)] ∧
  update 9 [old] old (store_title old None)
  = raise (not_null_violation a_title) ∧
  update 9 [old; with_defaults rowid_keys 5 [old] sample.late_show] old
    (setattr old (assign_slug (u "late show")))
  = raise (unique_violation a_slug).
Proof. vm_compute. done. Qed.

(** ** Listings do not depend on the order of the stored rows *)

Section listing_facts.
Variable collate_leb : unicode → unicode → bool.
Hypothesis collate_total : ∀ x y, collate_leb x y ∨ collate_leb y x.
Hypothesis collate_trans :
  ∀ x y z, collate_leb x y → collate_leb y z → collate_leb x z.
Hypothesis collate_antisym : ∀ x y, collate_leb x y → collate_leb y x → x = y.

Lemma key_le_antisym a b :
  query.key_le collate_leb a b → query.key_le collate_leb b a → a = b.
Proof.
  destruct a, b; simpl; try done. intros ? ?. f_equal. by apply collate_antisym.
Qed.

Lemma all_ignores_row_order (q : query.Query) (table1 table2 : list Podcast) :
  table1 ≡ₚ table2 →
  NoDup (default query.mapper_order_by (query.order_by q) <$> table1) →
  query.all collate_leb q table1 = query.all collate_leb q table2.
Proof.
  intros Hperm Hnodup.
  destruct (all_sorted collate_leb collate_total collate_trans q table1)
    as [Hsorted1 Hperm1].
  destruct (all_sorted collate_leb collate_total collate_trans q table2)
    as [Hsorted2 Hperm2].
  eapply StronglySorted_unique_strong; [| exact Hsorted1 | exact Hsorted2 |].
  - intros x1 x2 Hx1 Hx2 H12 H21.
    pose proof (key_le_antisym _ _ H12 H21) as Hkey.
    rewrite Hperm1 in Hx1. rewrite Hperm2, <- Hperm in Hx2.
    apply list_elem_of_filter in Hx1 as [_ Hx1].
    apply list_elem_of_filter in Hx2 as [_ Hx2].
    clear -Hnodup Hx1 Hx2 Hkey. induction table1 as [|y l IH]; [by inv Hx1|].
    rewrite fmap_cons in Hnodup. apply list.NoDup_cons in Hnodup as [Hy Hl].
    apply elem_of_cons in Hx1 as [->|Hx1], Hx2 as [->|Hx2]; [done| | |by apply IH].
    + destruct Hy. rewrite Hkey. by apply list_elem_of_fmap_2.
    + destruct Hy. rewrite <- Hkey. by apply list_elem_of_fmap_2.
  - by rewrite Hperm1, Hperm2, Hperm.
Qed.
End listing_facts.

Lemma binary_leb_antisym x y :
  query.binary_leb x y → query.binary_leb y x → x = y.
Proof.
  revert y. induction x as [|a x IH]; intros [|b y]; simpl; try done.
  rewrite !orb_True, !andb_True, !ltb_True, !eqb_True.
  intros [?|[Hab ?]] [?|[Hba ?]]; try lia. subst. f_equal. by apply IH.
Qed.

(** X17: under a total, transitive and antisymmetric collation, a query
    that names no ordering returns the same list whatever the order of
    the rows in the table, as long as no two rows share a title. *)
Theorem default_listing_ignores_row_order
    (collate_leb : unicode → unicode → bool) (q : query.Query)
    (table1 table2 : list Podcast) :
  (∀ x y, collate_leb x y ∨ collate_leb y x) →
  (∀ x y z, collate_leb x y → collate_leb y z → collate_leb x z) →
  (∀ x y, collate_leb x y → collate_leb y x → x = y) →
  query.order_by q = None →
  table1 ≡ₚ table2 →
  NoDup (podcasts.title <$> table1) →
  query.all collate_leb q table1 = query.all collate_leb q table2.
Proof.
  intros Htotal Htrans Hantisym Hnone Hperm Hnodup.
  apply (all_ignores_row_order collate_leb Htotal Htrans Hantisym);
    [done|]. by rewrite Hnone.
Qed.

Lemma default_listing_ignores_row_order_witness :
  query.order_by query.Podcast_query = None ∧
  [sample.show; sample.late_show] ≡ₚ [sample.late_show; sample.show] ∧
  NoDup (podcasts.title <$> [sample.show; sample.late_show]) ∧
  query.all query.binary_leb query.Podcast_query
    [sample.show; sample.late_show]
  = query.all query.binary_leb query.Podcast_query
      [sample.late_show; sample.show].
Proof.
  assert ([sample.show; sample.late_show] ≡ₚ [sample.late_show; sample.show])
    as Hperm by apply Permutation_swap.
  assert (NoDup (podcasts.title <$> [sample.show; sample.late_show]))
    as Hnodup.
  { apply list.NoDup_cons. split.
    - intros Hin. apply list_elem_of_singleton in Hin. discriminate Hin.
    - apply NoDup_singleton. }
  split; [reflexivity|]. split; [exact Hperm|]. split; [exact Hnodup|].
  exact (default_listing_ignores_row_order query.binary_leb
           query.Podcast_query _ _ binary_leb_total binary_leb_trans
           binary_leb_antisym eq_refl Hperm Hnodup).
Defined.

(** ** Podcast.__repr__ *)

Section repr_facts.
Import py.

Lemma hex_digit_printable (d : N) : (d < 16)%N → (32 ≤ hex_digit d < 127)%N.
Proof.
  unfold hex_digit. intros Hd. destruct (N.ltb_spec d 10); lia.
Qed.

Lemma hex_printable (width : nat) (n : N) : printable (hex width n).
Proof.
  unfold printable. revert n.
  induction width as [|w IH]; intros n; simpl; [constructor|].
  apply Forall_app. split; [apply IH|].
  constructor; [|constructor].
  apply hex_digit_printable. apply N.mod_upper_bound. lia.
Qed.

Lemma quote_of_printable (s : unicode) : (32 ≤ quote_of s < 127)%N.
Proof.
  unfold quote_of, double_quote, apostrophe.
  destruct (_ && _); lia.
Qed.

Lemma escape_printable (quote ch : N) :
  (32 ≤ quote < 127)%N → printable (escape quote ch).
Proof.
  intros Hquote. unfold escape, printable, backslash.
  destruct (bool_decide (ch = quote)) eqn:Hq.
  { apply bool_decide_eq_true in Hq as ->. simpl.
    repeat constructor; lia. }
  destruct (bool_decide (ch = 92%N)) eqn:Hb.
  { apply bool_decide_eq_true in Hb as ->. simpl.
    repeat constructor; lia. }
  cbn [orb].
  destruct (N.leb_spec 65536 ch).
  { constructor; [lia|]. constructor; [lia|]. apply hex_printable. }
  destruct (N.leb_spec 256 ch).
  { constructor; [lia|]. constructor; [lia|]. apply hex_printable. }
  destruct (N.eqb_spec ch 9); [repeat constructor; lia|].
  destruct (N.eqb_spec ch 10); [repeat constructor; lia|].
  destruct (N.eqb_spec ch 13); [repeat constructor; lia|].
  destruct (N.ltb_spec ch 32); cbn [orb].
  { constructor; [lia|]. constructor; [lia|]. apply hex_printable. }
  destruct (N.leb_spec 127 ch).
  { constructor; [lia|]. constructor; [lia|]. apply hex_printable. }
  constructor; [lia | constructor].
Qed.

Lemma bind_escape_printable (quote : N) (s : unicode) :
  (32 ≤ quote < 127)%N → printable (s ≫= escape quote).
Proof.
  intros Hquote. unfold printable.
  induction s as [|ch s IH]; csimpl; [constructor|].
  apply Forall_app. split; [by apply escape_printable | apply IH].
Qed.

Lemma u_printable_literals :
  printable (u "None") ∧ printable (u "<Podcast: ") ∧ printable (u ">").
Proof. unfold printable. repeat split; repeat constructor; simpl; lia. Qed.

Lemma repr_printable (v : option unicode) : printable (repr v).
Proof.
  destruct v as [s|]; [|apply u_printable_literals].
  unfold repr, unicode_repr, printable.
  pose proof (quote_of_printable s) as Hquote.
  constructor; [lia|]. constructor; [done|].
  apply Forall_app. split; [by apply bind_escape_printable|].
  by constructor.
Qed.

(** Plain text is written out as it is. *)
Lemma plain_quote (s : unicode) : plain s → quote_of s = apostrophe.
Proof.
  intros Hplain. unfold quote_of.
  rewrite (bool_decide_eq_false_2 (apostrophe ∈ s)); [done|].
  intros Hin. unfold plain in Hplain. rewrite list.Forall_forall in Hplain.
  by destruct (Hplain _ Hin) as (_ & ? & _).
Qed.

Lemma plain_escape (s : unicode) : plain s → s ≫= escape apostrophe = s.
Proof.
  unfold plain. induction 1 as [|ch s (Hrange & Hquote & Hslash) _ IH];
    [done|].
  csimpl. rewrite IH. unfold escape.
  rewrite (bool_decide_eq_false_2 (ch = apostrophe)) by done.
  rewrite (bool_decide_eq_false_2 (ch = backslash)) by done. cbn [orb].
  destruct (N.leb_spec 65536 ch); [lia|].
  destruct (N.leb_spec 256 ch); [lia|].
  destruct (N.eqb_spec ch 9); [lia|].
  destruct (N.eqb_spec ch 10); [lia|].
  destruct (N.eqb_spec ch 13); [lia|].
  destruct (N.ltb_spec ch 32); [lia|].
  destruct (N.leb_spec 127 ch); [lia|]. done.
Qed.
End repr_facts.

(** X18: whatever the slug holds, unset or any text at all, the
    representation of a podcast is made of printable ASCII characters
    only. *)
Theorem podcast_repr_is_printable (p : Podcast) :
  py.printable (Podcast_repr p).
Proof.
  unfold Podcast_repr, py.printable.
  rewrite !Forall_app. split; [apply u_printable_literals|].
  split; [apply repr_printable | apply u_printable_literals].
Qed.

(** X19: a podcast whose slug is plain text (printable ASCII with no
    apostrophe and no backslash) is shown with that slug word for word,
    between u' and '. *)
Theorem podcast_repr_shows_plain_slug (p : Podcast) (s : unicode) :
  podcasts.slug p = Some s →
  py.plain s →
  Podcast_repr p = u "<Podcast: u'" ++ s ++ u "'>".
Proof.
  intros Hslug Hplain. unfold Podcast_repr, py.repr, py.unicode_repr.
  rewrite Hslug, (plain_quote s Hplain), (plain_escape s Hplain).
  simpl. by rewrite <- app_assoc.
Qed.

Lemma podcast_repr_shows_plain_slug_witness :
  podcasts.slug sample.late_show = Some (u "late-show") ∧
  py.plain (u "late-show") ∧
  Podcast_repr sample.late_show = u "<Podcast: u'late-show'>".
Proof.
  assert (py.plain (u "late-show")) as Hplain.
  { unfold py.plain. repeat constructor; done. }
  split; [reflexivity|]. split; [exact Hplain|].
  exact (podcast_repr_shows_plain_slug sample.late_show (u "late-show")
           eq_refl Hplain).
Defined.

Example podcast_repr_samples :
  Podcast_repr new_podcast = u "<Podcast: None>" ∧
  Podcast_repr (store_slug new_podcast (Some (u "it's")))
  = [60; 80; 111; 100; 99; 97; 115; 116; 58; 32; 117; 34; 105; 116; 39;
     115; 34; 62]%N ∧
  Podcast_repr (store_slug new_podcast (Some [233; 10; 8364]%N))
  = u "<Podcast: u'\xe9\n\u20ac'>".
Proof. vm_compute. done. Qed.
